(** * xcheck: a consistency checker for xv6 file-system images

    A shallow embedding of [filesystems-checker/xcheck.c].  The C program
    keeps its bookkeeping in global arrays, prints diagnostics, reads the
    image block by block and leaves through [exit] from deep inside nested
    calls; the embedding threads a state (the two reference tables and a
    trace of observable events) through a small monad whose outcomes tell
    a normal return from [exit], from behaviour that C leaves undefined and
    from exhausted recursion fuel. *)

From Stdlib Require Import ZArith List String Lia.
From Stdlib.Strings Require Import Byte.
From stdpp Require Import base list.

Open Scope Z_scope.

(** ** Machine integers *)

(** [uint] arithmetic wraps modulo 2^32. *)
Definition wrap32 (z : Z) : Z := z mod 2 ^ 32.

Definition INT_MAX : Z := 2 ^ 31 - 1.

Definition byte_val (b : byte) : Z := Z.of_N (Byte.to_N b).

(** ** On-disk records (fs.h) *)

Definition T_DIR : Z := 1.
Definition T_FILE : Z := 2.
Definition T_DEV : Z := 3.

(** [struct superblock]: the fields the checker consults, and [inodestart],
    which the [IBLOCK] macro reads. *)
Record superblock := mk_superblock {
  sb_size : Z;
  sb_nblocks : Z;
  sb_ninodes : Z;
  sb_nlog : Z;
  sb_logstart : Z;
  sb_inodestart : Z;
  sb_bmapstart : Z
}.

(** [struct dinode]: [type] and [nlink] are C [short]s, [addrs] holds the
    NDIRECT direct addresses followed by the indirect one. *)
Record dinode := mk_dinode {
  d_type : Z;
  d_major : Z;
  d_minor : Z;
  d_nlink : Z;
  d_size : Z;
  d_addrs : list Z
}.

(** [struct dirent]: [name] is the raw [char name[DIRSIZ]] array. *)
Record dirent := mk_dirent {
  de_inum : Z;
  de_name : list byte
}.

(** The headers [fs.h] and [param.h] are not part of the checker's source
    file: their constants and the layout of the three records are taken as
    parameters.  [BSIZE] is the block size, [NDIRECT] the number of direct
    addresses of an inode, [NINDIRECT] the number of addresses in an
    indirect block, [IPB] the number of inodes per block, [DPB] the number
    of directory entries per block ([BSIZE / sizeof(struct dirent)]) and
    [SBSIZE] is [sizeof(struct superblock)].  [decode_superblock buf] is
    the record in the bytes [fread] stored, [decode_dinode buf k] stands
    for [*((struct dinode* )buf + k)], [decode_dirent buf k] for
    [*((struct dirent* )buf + k)] and [decode_uint buf k] for
    [*((uint* )buf + k)]. *)
Class FsParams := {
  BSIZE : Z;
  NDIRECT : nat;
  NINDIRECT : nat;
  IPB : Z;
  DPB : nat;
  SBSIZE : Z;
  decode_superblock : list byte -> superblock;
  decode_dinode : list byte -> Z -> dinode;
  decode_dirent : list byte -> Z -> dirent;
  decode_uint : list byte -> Z -> Z
}.

(** ** Events, state and the checker monad *)

Inductive fn := f_rblock | f_rinode | f_bmapval | f_recurse_dir.

#[global] Instance fn_eq_dec : EqDecision fn.
Proof. solve_decision. Defined.

(** What a run does that can be observed from outside, plus the calls of
    the functions the properties speak about. *)
Inductive event :=
| Printf (fmt : string) (args : list Z)
| Perror (msg : string)
| Call (f : fn) (arg : Z).

(** The global arrays [inode_refs] and [block_refs] and the trace so far. *)
Record state := mk_state {
  inode_refs : list Z;
  block_refs : list Z;
  trace : list event
}.

(** How a computation ends: it returns a value, the process leaves
    through [exit], the program does something C leaves undefined, or the
    fuel that bounds the recursion of the model is used up. *)
Inductive outcome (A : Type) :=
| Ret (a : A) (s : state)
| Exit (code : Z) (s : state)
| Fault (s : state)
| Timeout (s : state).
Arguments Ret {A} a s.
Arguments Exit {A} code s.
Arguments Fault {A} s.
Arguments Timeout {A} s.

Definition M (A : Type) : Type := state -> outcome A.

Definition ret {A} (a : A) : M A := fun s => Ret a s.

Definition bind {A B} (m : M A) (k : A -> M B) : M B := fun s =>
  match m s with
  | Ret a s' => k a s'
  | Exit c s' => Exit c s'
  | Fault s' => Fault s'
  | Timeout s' => Timeout s'
  end.

Notation "'let*' x ':=' m 'in' k" := (bind m (fun x => k))
  (at level 10, x name, m at level 100, k at level 200).

(** The state a computation ends in. *)
Definition final {A} (o : outcome A) : state :=
  match o with
  | Ret _ s | Exit _ s | Fault s | Timeout s => s
  end.

Definition emit (e : event) : M unit := fun s =>
  Ret tt (mk_state (inode_refs s) (block_refs s) (trace s ++ [e])).

(** The newline character of the C string literals. *)
Definition LF : string := String (Ascii.ascii_of_nat 10) EmptyString.

Definition printf (fmt : string) (args : list Z) : M unit := emit (Printf fmt args).
Definition perror (msg : string) : M unit := emit (Perror msg).

(** [exit(code)]. *)
Definition exit {A} (code : Z) : M A := fun s => Exit code s.

(** Behaviour the C standard leaves undefined: the model stops. *)
Definition fault {A} : M A := fun s => Fault s.

Definition timeout {A} : M A := fun s => Timeout s.

(** [inode_refs[i]]; an index outside the allocation (negative or past its
    end) is undefined. *)
Definition load_inode_refs (i : Z) : M Z := fun s =>
  match (if i <? 0 then None else inode_refs s !! Z.to_nat i) with
  | Some v => Ret v s
  | None => Fault s
  end.

Definition load_block_refs (i : Z) : M Z := fun s =>
  match (if i <? 0 then None else block_refs s !! Z.to_nat i) with
  | Some v => Ret v s
  | None => Fault s
  end.

(** [++inode_refs[i]], yielding the new value. *)
Definition incr_inode_refs (i : Z) : M Z := fun s =>
  match (if i <? 0 then None else inode_refs s !! Z.to_nat i) with
  | Some v =>
      Ret (wrap32 (v + 1))
          (mk_state (<[Z.to_nat i := wrap32 (v + 1)]> (inode_refs s)) (block_refs s) (trace s))
  | None => Fault s
  end.

(** [++block_refs[i]], yielding the new value. *)
Definition incr_block_refs (i : Z) : M Z := fun s =>
  match (if i <? 0 then None else block_refs s !! Z.to_nat i) with
  | Some v =>
      Ret (wrap32 (v + 1))
          (mk_state (inode_refs s) (<[Z.to_nat i := wrap32 (v + 1)]> (block_refs s)) (trace s))
  | None => Fault s
  end.

(** [p = malloc(n); memset(p, 0, n)] for an array of [uint]: [n / 4] zeroed
    entries. *)
Definition zeroed (nbytes : Z) : list Z := replicate (Z.to_nat (nbytes / 4)) 0.

Definition alloc_tables (ibytes bbytes : Z) : M unit := fun s =>
  Ret tt (mk_state (zeroed ibytes) (zeroed bbytes) (trace s)).

(** [strcmp(name, lit) == 0] for a literal [lit] given without its
    terminator: the characters agree and [name] ends where [lit] does. *)
Fixpoint strcmp_eq (name lit : list byte) : bool :=
  match lit, name with
  | [], c :: _ => Byte.eqb c x00
  | l :: lit', c :: name' => Byte.eqb c l && strcmp_eq name' lit'
  | _, [] => false
  end.

(** Bytes [off .. off+len) of the image, when it holds them all; this is
    [fseek(fp, off, SEEK_SET)] followed by an [fread] of one item of [len]
    bytes that succeeds. *)
Definition read_at (img : list byte) (off len : Z) : option (list byte) :=
  if off + len <=? Z.of_nat (length img)
  then Some (take (Z.to_nat len) (drop (Z.to_nat off) img))
  else None.

Definition addr (ip : dinode) (i : nat) : Z := nth i (d_addrs ip) 0.

(** A loop either runs to its end or executes [return]. *)
Inductive flow (A : Type) := Next (a : A) | Returned.
Arguments Next {A} a.
Arguments Returned {A}.

(** ** Layout (main, lines 60-66) *)

(** The globals [main] derives from the superblock before it looks at any
    inode. *)
Record globals := mk_globals {
  sb : superblock;
  bmapblocks : Z;
  ninodes : Z;
  iblocks : Z;
  nmeta : Z;
  nblocks : Z;
  bmapstart : Z
}.

Definition layout `{FsParams} (sb : superblock) : globals :=
  let bmapblocks := wrap32 (sb_size sb / (BSIZE * 8) + 1) in
  let ninodes := sb_ninodes sb in
  let iblocks := wrap32 (ninodes / IPB + 1) in
  let nmeta := wrap32 (2 + sb_nlog sb + iblocks + bmapblocks) in
  mk_globals sb bmapblocks ninodes iblocks nmeta (sb_nblocks sb) (sb_bmapstart sb).

(** ** The checker *)

Section Checker.
Context `{FsParams}.
(** The open image [fp] and the globals set up by [main]. *)
Variable img : list byte.
Variable g : globals.

(** The offset [fp_seek_block] seeks to, computed in [uint]; seeking in an
    open regular file does not fail. *)
Definition fp_seek_block (num : Z) : Z := wrap32 (num * BSIZE).

Definition rblock (num : Z) : M (list byte) :=
  let* _ := emit (Call f_rblock num) in
  match read_at img (fp_seek_block num) BSIZE with
  | Some buf => ret buf
  | None => let* _ := perror "fread" in exit 1
  end.

(** [IBLOCK(inum, sb)]. *)
Definition IBLOCK (inum : Z) : Z := wrap32 (inum / IPB + sb_inodestart (sb g)).

Definition rinode (inum : Z) : M dinode :=
  let* _ := emit (Call f_rinode inum) in
  let* buf := rblock (IBLOCK inum) in
  ret (decode_dinode buf (inum mod IPB)).

Definition rdirent (ent : Z) (buf : list byte) : dirent := decode_dirent buf ent.

Definition bmapval (num : Z) : M Z :=
  let* _ := emit (Call f_bmapval num) in
  let blk := (num / 8) / BSIZE in
  let bit := wrap32 (num - wrap32 (BSIZE * 8 * blk)) in
  let* buf := rblock (wrap32 (blk + bmapstart g)) in
  match buf !! Z.to_nat (bit / 8) with
  | Some byte => ret (Z.land (Z.shiftr (byte_val byte) (bit mod 8)) 1)
  | None => fault
  end.

Definition check_bp (bp : Z) : bool := (nmeta g <=? bp) && (bp <? sb_nblocks (sb g)).

(** *** process_file *)

(** The loop over the direct addresses; [last] is the local [bp], not
    yet assigned before the first iteration. *)
Fixpoint file_direct (f : dinode) (n i : nat) (last : option Z) : M (flow (option Z)) :=
  match n with
  | O => ret (Next last)
  | S n' =>
      let bp := addr f i in
      if bp =? 0 then ret Returned
      else if negb (check_bp bp) then
        let* _ := printf "ERROR: bad direct address in inode." [] in exit 1
      else
        let* r := incr_block_refs (wrap32 (bp - nmeta g)) in
        if r >? 1 then
          let* _ := printf "ERROR: direct address used more than once." [] in exit 1
        else file_direct f n' (S i) (Some bp)
  end.

(** The loop over the entries of the indirect block. *)
Fixpoint file_indirect (buf : list byte) (n i : nat) : M unit :=
  match n with
  | O => ret tt
  | S n' =>
      let bpi := decode_uint buf (Z.of_nat i) in
      if bpi =? 0 then ret tt
      else if negb (check_bp bpi) then
        let* _ := printf "ERROR: bad indirect address in inode." [] in exit 1
      else
        let* r := incr_block_refs (wrap32 (bpi - nmeta g)) in
        if r >? 1 then
          let* _ := printf "ERROR: indirect address used more than once." [] in exit 1
        else file_indirect buf n' (S i)
  end.

Definition process_file (f : dinode) : M unit :=
  if negb (d_type f =? T_FILE) && negb (d_type f =? T_DEV) then
    let* _ := printf "Application Error: non-file inode passed to process_file" [] in
    exit 1
  else
    let* fl := file_direct f NDIRECT 0 None in
    match fl with
    | Returned => ret tt
    | Next last =>
        let ibp := addr f NDIRECT in
        if ibp =? 0 then ret tt
        else
          match last with
          | None => fault
          | Some bp =>
              if negb (check_bp bp) then
                let* _ := printf "ERROR: bad direct address in inode." [] in exit 1
              else
                let* r := incr_block_refs (wrap32 (ibp - nmeta g)) in
                let* _ := (if r >? 1
                           then printf "ERROR: direct address used more than once." []
                           else ret tt) in
                let* buf := rblock ibp in
                file_indirect buf NINDIRECT 0
          end
    end.

(** *** recurse_dir *)

(** Lines 191-204: the first two slots of a directory's first block
    must be [.] (naming the directory itself) and [..]; returns
    [bdeidx]. *)
Definition check_dots (buf : list byte) (inum : Z) : M nat :=
  let de := rdirent 0 buf in
  if negb (strcmp_eq (de_name de) ["."%byte]) || negb (de_inum de =? inum) then
    let* _ := printf "ERROR: directory not properly formatted." [] in exit 1
  else
    let de := rdirent 1 buf in
    if negb (strcmp_eq (de_name de) ["."%byte; "."%byte]) then
      let* _ := printf "ERROR: directory not properly formatted." [] in exit 1
    else ret 2%nat.

(** Lines 211-229: one live directory entry. *)
Definition process_entry (rec : dinode -> Z -> M unit) (de : dirent) : M unit :=
  let* cur_inode := rinode (de_inum de) in
  if (d_type cur_inode <? T_DIR) || (d_type cur_inode >? T_DEV) then
    let* _ := printf ("Invalide inode type" ++ LF) [] in exit 1
  else
    let* _ := incr_inode_refs (de_inum de) in
    if d_type cur_inode =? T_DIR then
      let* r := load_inode_refs (de_inum de) in
      if r >? 1 then
        let* _ := printf "ERROR: directory appears more than once in file system." [] in
        exit 1
      else rec cur_inode (de_inum de)
    else process_file cur_inode.

(** The [while (bdeidx < maxidx)] loop, [n] iterations left. *)
Fixpoint scan_dirents (rec : dinode -> Z -> M unit) (buf : list byte) (n bdeidx : nat)
  : M unit :=
  match n with
  | O => ret tt
  | S n' =>
      let de := rdirent (Z.of_nat bdeidx) buf in
      if de_inum de =? 0 then ret tt
      else
        let* _ := process_entry rec de in
        scan_dirents rec buf n' (S bdeidx)
  end.

(** The loop over the direct addresses of a directory. *)
Fixpoint dir_blocks (rec : dinode -> Z -> M unit) (dir : dinode) (inum : Z) (n i : nat)
  : M unit :=
  match n with
  | O => ret tt
  | S n' =>
      let bp := addr dir i in
      if bp =? 0 then ret tt
      else if negb (check_bp bp) then
        let* _ := printf "ERROR: bad direct address in inode." [] in exit 1
      else
        let* _ := incr_block_refs (wrap32 (bp - nmeta g)) in
        let* buf := rblock bp in
        let* bdeidx := (if Nat.eqb i 0 then check_dots buf inum else ret 0%nat) in
        let* _ := scan_dirents rec buf (DPB - bdeidx) bdeidx in
        dir_blocks rec dir inum n' (S i)
  end.

(** The C function recurses without bound; [fuel] bounds the depth of
    the recursion in the model. *)
Fixpoint recurse_dir (fuel : nat) (dir : dinode) (inum : Z) : M unit :=
  match fuel with
  | O => timeout
  | S fuel' =>
      let* _ := emit (Call f_recurse_dir inum) in
      if negb (d_type dir =? T_DIR) then
        let* _ := printf "Application Error: 'traversedir' called on a non-directory" [] in
        exit 1
      else dir_blocks (recurse_dir fuel') dir inum NDIRECT 0
  end.

(** *** The final inode scan (main, lines 93-149) *)

(** Lines 130-148: the bitmap must mark every address of the inode. *)
Fixpoint addr_scan (inode : dinode) (n i : nat) : M unit :=
  match n with
  | O => ret tt
  | S n' =>
      if addr inode i =? 0 then ret tt
      else
        let* v := bmapval (addr inode i) in
        if v =? 0 then
          let* _ := printf "ERROR: address used by inode but marked free in bitmap." [] in
          exit 1
        else if Nat.eqb (S i) NDIRECT then
          if addr inode NDIRECT =? 0 then ret tt
          else
            let* v := bmapval (addr inode NDIRECT) in
            let* _ := (if v =? 0
                       then printf "ERROR: address used by inode but marked free in bitmap." []
                       else ret tt) in
            addr_scan inode n' (S i)
        else addr_scan inode n' (S i)
  end.

(** Lines 95-148: the body of the loop for inode [i]. *)
Definition check_inode (i : Z) : M unit :=
  let* inode := rinode i in
  if d_type inode =? 0 then
    let* r := load_inode_refs i in
    if negb (r =? 0) then
      let* _ := printf "ERROR: inode referred to in directory but marked free." [] in
      exit 1
    else ret tt
  else if (d_type inode <? T_DIR) || (d_type inode >? T_DEV) then
    let* _ := printf "ERROR: bad inode." [] in exit 1
  else
    let* r := load_inode_refs i in
    if r =? 0 then
      let* _ := printf "ERROR: inode marked use but not found in a directory." [] in
      let* _ := printf (LF ++ "inode number: %d") [i] in
      exit 1
    else if (d_type inode =? T_DIR) && (r >? 1) then
      let* _ := printf "ERROR: directory appears more than once in file system." [] in
      exit 1
    else if negb (wrap32 (d_nlink inode) =? r) then
      let* _ := printf "ERROR: bad reference count for file." [] in exit 1
    else addr_scan inode NDIRECT 0.

(** [for (int i = 2; i < ninodes; ++i)], [n] iterations left; [++i]
    overflows at [INT_MAX]. *)
Fixpoint inode_loop (n : nat) (i : Z) : M unit :=
  match n with
  | O => ret tt
  | S n' =>
      let* _ := check_inode i in
      if i =? INT_MAX then fault else inode_loop n' (i + 1)
  end.

(** *** The bitmap scan (main, lines 152-158) *)

Fixpoint bitmap_loop (n : nat) (i : Z) : M unit :=
  match n with
  | O => ret tt
  | S n' =>
      let* v := bmapval i in
      let* unused := (if v =? 0 then ret false
                      else let* r := load_block_refs (wrap32 (i - nmeta g)) in
                           ret (r =? 0)) in
      if unused : bool then
        let* _ := printf "ERROR: bitmap marks block in use but it is not in use." [] in
        exit 1
      else if i =? INT_MAX then fault
      else bitmap_loop n' (i + 1)
  end.

(** Everything [main] does once the globals are set (lines 67-161). *)
Definition check_image (fuel : nat) : M Z :=
  let* _ := alloc_tables (wrap32 (sb_ninodes (sb g) * BSIZE)) (wrap32 (nblocks g * BSIZE)) in
  let* root_inode := rinode 1 in
  if negb (d_type root_inode =? T_DIR) then
    let* _ := printf ("ERROR: root directory does not exist." ++ LF) [] in exit 1
  else
    let* buf := rblock (addr root_inode 0) in
    let parent_dirent := rdirent 1 buf in
    if negb (de_inum parent_dirent =? 1) then
      let* _ := printf ("ERROR: root directory does not exist." ++ LF) [] in exit 1
    else
      let* _ := recurse_dir fuel root_inode 1 in
      let* _ := inode_loop (Z.to_nat (ninodes g - 2)) 2 in
      let* _ := bitmap_loop (Z.to_nat (nblocks g - nmeta g)) (nmeta g) in
      ret 0.

End Checker.

(** ** main *)

(** [fp_seek(BSIZE, SEEK_CUR)] on the freshly opened stream and the [fread]
    of the superblock.  A failed read is reported and the run goes on with
    whatever the global [sb] holds: zeroes when nothing was read; after a
    partial read its value is indeterminate. *)
Definition read_superblock `{FsParams} (img : list byte) : M superblock :=
  match read_at img BSIZE SBSIZE with
  | Some buf => ret (decode_superblock buf)
  | None =>
      let* _ := printf ("Unable to read superblock." ++ LF) [] in
      match drop (Z.to_nat BSIZE) img with
      | [] => ret (decode_superblock (replicate (Z.to_nat SBSIZE) x00))
      | _ => fault
      end
  end.

(** [fopen path] is the content of the file [fopen(path, "rb")] opens, if
    it can be opened; [fuel] bounds the depth of the directory recursion. *)
Definition main `{FsParams} (fuel : nat) (argv : list string)
    (fopen : string -> option (list byte)) : M Z :=
  if negb (Nat.eqb (length argv) 2) then
    let* _ := printf ("usage: xcheck <filesystem_image>" ++ LF) [] in ret 1
  else
    match fopen (nth 1 argv ""%string) with
    | None =>
        let* _ := printf ("invalid image file." ++ LF) [] in
        (* fseek on a null stream *)
        fault
    | Some img =>
        let* sb := read_superblock img in
        check_image img (layout sb) fuel
    end.

Definition init_state : state := mk_state [] [] [].

(** The exit status of the process, when the run ends by returning from
    [main] or through [exit]. *)
Definition status (o : outcome Z) : option Z :=
  match o with
  | Ret c _ | Exit c _ => Some c
  | Fault _ | Timeout _ => None
  end.

Definition xcheck `{FsParams} (fuel : nat) (argv : list string)
    (fopen : string -> option (list byte)) : outcome Z :=
  main fuel argv fopen init_state.

(** What the run wrote to standard output. *)
Definition printed (tr : list event) : list string :=
  omap (fun e => match e with Printf fmt _ => Some fmt | _ => None end) tr.

(** ** The xv6 layout *)

(** The constants and record layouts of the [fs.h] of xv6, the file system
    the checker is written for: 512-byte blocks, 12 direct addresses,
    64-byte inodes, 16-byte directory entries, little-endian fields.  The
    checker is run with them on concrete images. *)
Module Xv6.

Definition le (bs : list byte) : Z :=
  fold_right (fun b acc => byte_val b + 256 * acc) 0 bs.

Definition field (buf : list byte) (off len : nat) : list byte :=
  take len (drop off buf).

Definition u16 (buf : list byte) (off : nat) : Z := le (field buf off 2).
Definition u32 (buf : list byte) (off : nat) : Z := le (field buf off 4).
Definition s16 (buf : list byte) (off : nat) : Z :=
  let v := u16 buf off in if v <? 2 ^ 15 then v else v - 2 ^ 16.

(** [struct superblock]: seven [uint]s. *)
Definition dec_superblock (buf : list byte) : superblock :=
  mk_superblock (u32 buf 0) (u32 buf 4) (u32 buf 8) (u32 buf 12)
                (u32 buf 16) (u32 buf 20) (u32 buf 24).

(** [struct dinode]: four [short]s, [uint size], [uint addrs[13]]: 64
    bytes. *)
Definition dec_dinode (buf : list byte) (k : Z) : dinode :=
  let o := (Z.to_nat k * 64)%nat in
  mk_dinode (s16 buf o) (s16 buf (o + 2)) (s16 buf (o + 4)) (s16 buf (o + 6))
            (u32 buf (o + 8))
            (map (fun j => u32 buf (o + 12 + 4 * j)) (seq 0 13)).

(** [struct dirent]: [ushort inum; char name[14]]: 16 bytes. *)
Definition dec_dirent (buf : list byte) (k : Z) : dirent :=
  let o := (Z.to_nat k * 16)%nat in
  mk_dirent (u16 buf o) (field buf (o + 2) 14).

Definition dec_uint (buf : list byte) (k : Z) : Z := u32 buf (Z.to_nat k * 4).

#[export] Instance params : FsParams := {|
  BSIZE := 512;
  NDIRECT := 12;
  NINDIRECT := 128;
  IPB := 8;
  DPB := 32;
  SBSIZE := 28;
  decode_superblock := dec_superblock;
  decode_dinode := dec_dinode;
  decode_dirent := dec_dirent;
  decode_uint := dec_uint
|}.

(** *** Building images *)

Definition byte_of (z : Z) : byte :=
  match Byte.of_N (Z.to_N (z mod 256)) with Some b => b | None => x00 end.

Definition enc16 (z : Z) : list byte := [byte_of z; byte_of (z / 256)].
Definition enc32 (z : Z) : list byte :=
  [byte_of z; byte_of (z / 256); byte_of (z / 65536); byte_of (z / 16777216)].

Definition pad_to (n : nat) (l : list byte) : list byte :=
  take n (l ++ replicate n x00).

Definition enc_superblock (s : superblock) : list byte :=
  enc32 (sb_size s) ++ enc32 (sb_nblocks s) ++ enc32 (sb_ninodes s) ++ enc32 (sb_nlog s)
  ++ enc32 (sb_logstart s) ++ enc32 (sb_inodestart s) ++ enc32 (sb_bmapstart s).

Definition enc_dinode (type nlink : Z) (addrs : list Z) : list byte :=
  pad_to 64 (enc16 type ++ enc16 0 ++ enc16 0 ++ enc16 nlink ++ enc32 512
             ++ concat (map enc32 addrs)).

Definition free_dinode : list byte := replicate 64 x00.

Definition enc_dirent (inum : Z) (name : list byte) : list byte :=
  enc16 inum ++ pad_to 14 name.

Definition dot : list byte := ["."%byte].
Definition dotdot : list byte := ["."%byte; "."%byte].

(** One bitmap block: bit [b] is set exactly for the [b] in [used]. *)
Definition enc_bitmap (used : list Z) : list byte :=
  map (fun k =>
         byte_of (fold_right Z.add 0
           (map (fun j => if bool_decide (8 * Z.of_nat k + Z.of_nat j ∈ used)
                          then 2 ^ Z.of_nat j else 0) (seq 0 8))))
      (seq 0 512).

(** An image of [n] blocks; [content k] is the beginning of block [k],
    the rest of the block is zero. *)
Definition mk_image (n : nat) (content : nat -> list byte) : list byte :=
  flat_map (fun k => pad_to 512 (content k)) (seq 0 n).

(** A small image from its superblock, its first eight inodes (one
    block of the inode table), its data blocks and the blocks its bitmap
    marks. *)
Definition sample (s : superblock) (inodes : list (list byte))
    (data : list (nat * list byte)) (used : list Z) : list byte :=
  mk_image (Z.to_nat (sb_size s)) (fun k =>
    if Nat.eqb k 1 then enc_superblock s
    else if Nat.eqb k (Z.to_nat (sb_inodestart s)) then concat inodes
    else if Nat.eqb k (Z.to_nat (sb_bmapstart s)) then enc_bitmap used
    else match list_find (fun p => Nat.eqb (fst p) k) data with
         | Some (_, (_, b)) => b
         | None => []
         end).

(** The superblock [mkfs] writes with xv6's default parameters: 1000
    blocks, 30 log blocks, 200 inodes. *)
Definition sb_default : superblock := mk_superblock 1000 941 200 30 2 32 58.

(** The geometry of most sample images: 64 blocks, no log, 8 inodes in
    blocks 2 and 3, the bitmap in block 4, data from block 5 on. *)
Definition sb64 : superblock := mk_superblock 64 59 8 0 2 2 4.

Definition argv : list string := ["xcheck"%string; "fs.img"%string].

Definition run (img : list byte) : outcome Z := xcheck 100 argv (fun _ => Some img).

(** The smallest consistent image: a root directory holding only [.]
    and [..]. *)
Definition img_root_only : list byte :=
  sample sb64 [free_dinode; enc_dinode T_DIR 1 [5]]
         [(5%nat, enc_dirent 1 dot ++ enc_dirent 1 dotdot)]
         [5].

(** The root directory lists the empty block 6 twice. *)
Definition img_dir_block_twice : list byte :=
  sample sb64 [free_dinode; enc_dinode T_DIR 1 [5; 6; 6]]
         [(5%nat, enc_dirent 1 dot ++ enc_dirent 1 dotdot)]
         [5; 6].

Definition range (a : Z) (n : nat) : list Z := map (fun k => a + Z.of_nat k) (seq 0 n).

Definition name_a : list byte := ["a"%byte].
Definition name_b : list byte := ["b"%byte].

(** File [a] (inode 2) uses its first data block 10 again as its
    indirect block; the bitmap does not mark the indirect block 42 of
    file [b] (inode 3). *)
Definition img_two_reports : list byte :=
  sample sb64
         [free_dinode; enc_dinode T_DIR 1 [5];
          enc_dinode T_FILE 1 (range 10 12 ++ [10]);
          enc_dinode T_FILE 1 (range 30 12 ++ [42])]
         [(5%nat, enc_dirent 1 dot ++ enc_dirent 1 dotdot
                  ++ enc_dirent 2 name_a ++ enc_dirent 3 name_b)]
         ([5] ++ range 10 12 ++ range 30 12).

(** File [a] (inode 2) has twelve good direct addresses and the
    indirect address 60, beyond the last block [check_bp] accepts. *)
Definition file_bad_indirect : list byte := enc_dinode T_FILE 1 (range 10 12 ++ [60]).

Definition img_bad_indirect : list byte :=
  sample sb64 [free_dinode; enc_dinode T_DIR 1 [5]; file_bad_indirect]
         [(5%nat, enc_dirent 1 dot ++ enc_dirent 1 dotdot ++ enc_dirent 2 name_a)]
         ([5] ++ range 10 12 ++ [60]).

(** A superblock that declares no inodes at all: the inode table still
    starts at block 2, the bitmap is block 3 and the checker places the
    data region at block 4. *)
Definition sb_no_inodes : superblock := mk_superblock 64 60 0 0 2 2 3.

Definition img_no_inodes : list byte :=
  sample sb_no_inodes [free_dinode; enc_dinode T_DIR 1 [4]]
         [(4%nat, enc_dirent 1 dot ++ enc_dirent 1 dotdot)]
         [4].

(** A consistent image with a subdirectory [a] (inode 2, block 6) that
    holds one file [b] (inode 3, block 7). *)
Definition img_subdir : list byte :=
  sample sb64
         [free_dinode; enc_dinode T_DIR 1 [5]; enc_dinode T_DIR 1 [6];
          enc_dinode T_FILE 1 [7]]
         [(5%nat, enc_dirent 1 dot ++ enc_dirent 1 dotdot ++ enc_dirent 2 name_a);
          (6%nat, enc_dirent 2 dot ++ enc_dirent 1 dotdot ++ enc_dirent 3 name_b)]
         [5; 6; 7].

(** The root inode of the sample images with a one-block root. *)
Definition root_dinode : dinode := dec_dinode (enc_dinode T_DIR 1 [5]) 0.

(** Small zeroed tables: 8 inode counters, 128 block counters. *)
Definition small_state : state := mk_state (zeroed 32) (zeroed 512) [].

(** The root directory has a third entry that names the root itself. *)
Definition img_root_loop : list byte :=
  sample sb64 [free_dinode; enc_dinode T_DIR 1 [5]]
         [(5%nat, enc_dirent 1 dot ++ enc_dirent 1 dotdot ++ enc_dirent 1 name_a)]
         [5].

End Xv6.


(** ** Specification-level definitions *)

(** Division rounded up. *)
Definition ceil_div (a b : Z) : Z := (a + b - 1) / b.

(** The arguments of the calls of [f] in a trace, in order. *)
Definition calls (f : fn) (tr : list event) : list Z :=
  omap (fun e => match e with
                 | Call f' a => if bool_decide (f' = f) then Some a else None
                 | _ => None
                 end) tr.

(** *** Reasoning about runs *)

(** How a run stops when it does not return. *)
Inductive stop := SExit (code : Z) | SFault | STimeout.

(** [wp m Q X s]: the run of [m] from [s] either returns [a] in a state
    satisfying [Q a], or stops in a way and a state accepted by [X]. *)
Definition wp {A} (m : M A) (Q : A -> state -> Prop) (X : stop -> state -> Prop)
    (s : state) : Prop :=
  match m s with
  | Ret a s' => Q a s'
  | Exit c s' => X (SExit c) s'
  | Fault s' => X SFault s'
  | Timeout s' => X STimeout s'
  end.

(** The state after appending an event to the trace. *)
Definition log (e : event) (s : state) : state :=
  mk_state (inode_refs s) (block_refs s) (trace s ++ [e]).

(** A computation that only ever appends to the trace. *)
Definition extends {A} (m : M A) : Prop :=
  forall s, trace s `prefix_of` trace (final (m s)).

(** Events other than the entry into [recurse_dir]. *)
Definition quiet_event (e : event) : Prop := forall a, e <> Call f_recurse_dir a.

(** State predicates that survive a quiet event and any update of
    [block_refs]: what every part of the checker outside the directory
    walker preserves. *)
Definition frame_stable (I : state -> Prop) : Prop :=
  (forall e s, quiet_event e -> I s -> I (log e s))
  /\ (forall s br, I s -> I (mk_state (inode_refs s) br (trace s))).

(** State predicates that only depend on the trace and survive any
    extension of it. *)
Definition trace_stable (I : state -> Prop) : Prop :=
  (forall e s, I s -> I (log e s))
  /\ (forall s ir br, I s -> I (mk_state ir br (trace s))).

(** The run stopped for a reason other than exhausted fuel, in a state
    satisfying [I]. *)
Definition halted (I : state -> Prop) (k : stop) (s : state) : Prop :=
  k <> STimeout /\ I s.

(** *** The directory walk, seen from the image *)

(** The inode [rinode x] yields, when its block can be read. *)
Definition inode_at `{FsParams} (img : list byte) (g : globals) (x : Z) : option dinode :=
  match read_at img (wrap32 (IBLOCK g x * BSIZE)) BSIZE with
  | Some buf => Some (decode_dinode buf (x mod IPB))
  | None => None
  end.

(** Inode [x] is a directory on disk. *)
Definition is_dir `{FsParams} (img : list byte) (g : globals) (x : Z) : bool :=
  match inode_at img g x with
  | Some ip => d_type ip =? T_DIR
  | None => false
  end.

(** The count recorded for inode [x], 0 outside the table. *)
Definition ref_of (refs : list Z) (x : Z) : Z :=
  if x <? 0 then 0 else default 0 (refs !! Z.to_nat x).

(** How often [recurse_dir] was entered for inode [x]. *)
Definition enters (x : Z) (tr : list event) : nat :=
  count_occ Z.eq_dec (calls f_recurse_dir tr) x.

(** The number of table entries, from index [k] on, that belong to
    directories and are still zero. *)
Fixpoint unvisited (isd : nat -> bool) (k : nat) (refs : list Z) : nat :=
  match refs with
  | [] => 0
  | v :: refs' => ((if isd k && (v =? 0)%Z then 1 else 0) + unvisited isd (S k) refs')%nat
  end.

Section WalkInvariants.
Context `{FsParams} (img : list byte) (g : globals).
(** The inode the traversal started from. *)
Variable origin : Z.

Definition dir_index (k : nat) : bool := is_dir img g (Z.of_nat k).

Definition to_visit (s : state) : nat := unvisited dir_index 0 (inode_refs s).

(** No directory is counted more than [n] times. *)
Definition dirs_at_most (n : Z) (s : state) : Prop :=
  forall x v, 0 <= x -> is_dir img g x = true ->
    inode_refs s !! Z.to_nat x = Some v -> 0 <= v <= n.

(** A directory is entered at most once for the entry that made its count
    non-zero, the origin once more; [extra] is a directory about to be
    entered. *)
Definition entered_upto (extra : option Z) (s : state) : Prop :=
  forall x,
    (enters x (trace s) + (if bool_decide (extra = Some x) then 1 else 0)
     <= (if (x =? origin)%Z then 1 else 0)
        + (if is_dir img g x && negb (ref_of (inode_refs s) x =? 0)%Z then 1 else 0))%nat.

Definition dup_msg : string := "ERROR: directory appears more than once in file system.".

(** The ways the walk may stop: never for lack of fuel; with a directory
    counted twice only right after the duplicate report. *)
Definition walk_stop (k : stop) (s : state) : Prop :=
  k <> STimeout
  /\ entered_upto None s
  /\ (dirs_at_most 1 s
      \/ (k = SExit 1 /\ dirs_at_most 2 s /\ last (trace s) = Some (Printf dup_msg []))).

(** The invariant of the walk between entries, with at most [bound]
    directories left to visit. *)
Definition walk_inv (bound : nat) (s : state) : Prop :=
  dirs_at_most 1 s /\ entered_upto None s /\ (to_visit s <= bound)%nat.

End WalkInvariants.

(** *** The directory entries the walk counts *)

Section Counted.
Context `{FsParams} (img : list byte) (g : globals).

(** The inode numbers in the slots of [buf] from [bdeidx] on, [n] slots at
    most, up to the first slot whose inode number is 0. *)
Fixpoint live_from (buf : list byte) (n bdeidx : nat) : list Z :=
  match n with
  | O => []
  | S n' =>
      let x := de_inum (decode_dirent buf (Z.of_nat bdeidx)) in
      if x =? 0 then [] else x :: live_from buf n' (S bdeidx)
  end.

(** Counting starts after [.] and [..] in a directory's first block and
    at the first slot of the others. *)
Definition first_counted (i : nat) : nat := if Nat.eqb i 0 then 2%nat else 0%nat.

Definition counted_in_block (i : nat) (buf : list byte) : list Z :=
  live_from buf (DPB - first_counted i) (first_counted i).

(** An entry naming [x], followed by what lies below [x] when [x] is a
    directory. *)
Definition counted_entry (below : dinode -> list Z) (x : Z) : list Z :=
  x :: match inode_at img g x with
       | Some ip => if d_type ip =? T_DIR then below ip else []
       | None => []
       end.

(** The counted entries of the blocks [i], [i+1], ... of [dir], up to its
    first zero address. *)
Fixpoint counted_blocks (below : dinode -> list Z) (dir : dinode) (n i : nat) : list Z :=
  match n with
  | O => []
  | S n' =>
      if addr dir i =? 0 then []
      else match read_at img (wrap32 (addr dir i * BSIZE)) BSIZE with
           | Some buf =>
               flat_map (counted_entry below) (counted_in_block i buf)
               ++ counted_blocks below dir n' (S i)
           | None => []
           end
  end.

(** All entries counted by a walk of [dir], those of the directories
    below it included, in the order of the walk. *)
Fixpoint counted (fuel : nat) (dir : dinode) : list Z :=
  match fuel with
  | O => []
  | S fuel' => counted_blocks (counted fuel') dir NDIRECT 0
  end.

End Counted.

(** One more reference to inode [x]. *)
Definition bump (refs : list Z) (x : Z) : list Z :=
  <[Z.to_nat x := wrap32 (ref_of refs x + 1)]> refs.

(** [refs'] is [refs] with one more reference for each element of [l],
    all of them inside the table. *)
Definition bumped (refs : list Z) (l : list Z) (refs' : list Z) : Prop :=
  refs' = fold_left bump l refs
  /\ Forall (fun y => 0 <= y < Z.of_nat (length refs)) l.

(** [m2] does what [m1] does wherever [m1] does not run out of fuel. *)
Definition refines {A} (m1 m2 : M A) : Prop :=
  forall s, (forall s', m1 s <> Timeout s') -> m2 s = m1 s.

(** *** What the passes of the checker establish *)

Section Passes.
Context `{FsParams} (img : list byte) (g : globals).

(** The value [bmapval num] returns when the bitmap block can be read. *)
Definition bit_at (num : Z) : option Z :=
  let blk := (num / 8) / BSIZE in
  let bit := wrap32 (num - wrap32 (BSIZE * 8 * blk)) in
  match read_at img (fp_seek_block (wrap32 (blk + bmapstart g))) BSIZE with
  | Some buf =>
      match buf !! Z.to_nat (bit / 8) with
      | Some byte => Some (Z.land (Z.shiftr (byte_val byte) (bit mod 8)) 1)
      | None => None
      end
  | None => None
  end.

(** The bitmap marks block [a] as used. *)
Definition marked_in_bitmap (a : Z) : Prop :=
  exists v, bit_at a = Some v /\ v <> 0.

(** Slot [k] of the inode lies before its first zero direct address. *)
Definition in_use_slot (ip : dinode) (k : nat) : Prop :=
  forall k', (k' <= k)%nat -> addr ip k' <> 0.

(** What the final inode scan accepts for inode [i], given the counts
    [refs]. *)
Definition inode_passes (refs : list Z) (i : Z) : Prop :=
  exists ip r,
    inode_at img g i = Some ip
    /\ refs !! Z.to_nat i = Some r
    /\ (d_type ip = 0 -> r = 0)
    /\ (d_type ip <> 0 ->
        T_DIR <= d_type ip <= T_DEV
        /\ r <> 0
        /\ (d_type ip = T_DIR -> r <= 1)
        /\ wrap32 (d_nlink ip) = r
        /\ forall k, (k < NDIRECT)%nat -> in_use_slot ip k ->
             marked_in_bitmap (addr ip k)).

(** What the bitmap scan accepts for block [b], given the counts [brefs]:
    a block the bitmap marks is counted. *)
Definition block_passes (brefs : list Z) (b : Z) : Prop :=
  exists v,
    bit_at b = Some v
    /\ (v <> 0 -> exists r, brefs !! Z.to_nat (wrap32 (b - nmeta g)) = Some r /\ r <> 0).

(** The first two entries of the block [buf] are [.], naming [inum], and
    [..]. *)
Definition dots_ok (buf : list byte) (inum : Z) : Prop :=
  strcmp_eq (de_name (decode_dirent buf 0)) ["."%byte] = true
  /\ de_inum (decode_dirent buf 0) = inum
  /\ strcmp_eq (de_name (decode_dirent buf 1)) ["."%byte; "."%byte] = true.

End Passes.

(** Counters that one more increment does not wrap. *)
Definition counters_in_range (l : list Z) : Prop :=
  Forall (fun v => 0 <= v < 2 ^ 32 - 1) l.

(** The two reference tables of a state. *)
Definition tables (s : state) : list Z * list Z := (inode_refs s, block_refs s).

(** A run that stops through [exit] does so with status 1. *)
Definition exits_1 (k : stop) (s : state) : Prop := forall c, k = SExit c -> c = 1.

(** Inode [x] can be read and has one of the three known types. *)
Definition valid_inode `{FsParams} (img : list byte) (g : globals) (x : Z) : Prop :=
  exists ip, inode_at img g x = Some ip /\ T_DIR <= d_type ip <= T_DEV.

(** ** More sample data under the xv6 layout *)

Module Samples.

(** The file [b] of [Xv6.img_subdir]: one data block, number 7. *)
Definition file_b : dinode := Xv6.dec_dinode (Xv6.enc_dinode T_FILE 1 [7]) 0.

(** The small zeroed tables with block 7 (counter 2 of the data region
    that starts at block 5) already counted once. *)
Definition state_block7_counted : state :=
  mk_state (zeroed 32) (<[2%nat := 1]> (zeroed 512)) [].

(** The state the walk of [Xv6.img_subdir] ends in. *)
Definition walked_state : state :=
  final (recurse_dir (H := Xv6.params) Xv6.img_subdir (layout (H := Xv6.params) Xv6.sb64) 9
           Xv6.root_dinode 1 Xv6.small_state).

(** A directory block with [.], [..] and nothing else, and the same block
    with an entry behind the free slot 2. *)
Definition dir_block : list byte :=
  Xv6.pad_to 512 (Xv6.enc_dirent 1 Xv6.dot ++ Xv6.enc_dirent 1 Xv6.dotdot).

Definition dir_block_stale : list byte :=
  Xv6.pad_to 512 (Xv6.enc_dirent 1 Xv6.dot ++ Xv6.enc_dirent 1 Xv6.dotdot
                  ++ Xv6.enc_dirent 0 [] ++ Xv6.enc_dirent 3 Xv6.name_b).

End Samples.

(** * Properties *)

(** ** Rules for [wp] *)

Section WpRules.
Context {A B : Type}.
Implicit Types (Q : A -> state -> Prop) (X : stop -> state -> Prop) (s : state).

Lemma wp_ret (a : A) Q X s : Q a s -> wp (ret a) Q X s.
Proof. exact id. Qed.

Lemma wp_bind (m : M A) (k : A -> M B) (R : B -> state -> Prop) X s :
  wp m (fun a s' => wp (k a) R X s') X s -> wp (bind m k) R X s.
Proof. unfold wp, bind. destruct (m s); exact id. Qed.

Lemma wp_exit (c : Z) Q X s : X (SExit c) s -> wp (exit c) Q X s.
Proof. exact id. Qed.

Lemma wp_fault Q X s : X SFault s -> wp fault Q X s.
Proof. exact id. Qed.

Lemma wp_timeout Q X s : X STimeout s -> wp timeout Q X s.
Proof. exact id. Qed.

Lemma wp_mono (m : M A) Q Q' X X' s :
  wp m Q X s -> (forall a s', Q a s' -> Q' a s') -> (forall k s', X k s' -> X' k s') ->
  wp m Q' X' s.
Proof. unfold wp. destruct (m s); eauto. Qed.

Lemma wp_final (m : M A) (P : state -> Prop) s :
  wp m (fun _ => P) (fun _ => P) s <-> P (final (m s)).
Proof. unfold wp. destruct (m s); reflexivity. Qed.

End WpRules.

Lemma wp_emit (e : event) (Q : unit -> state -> Prop) X s :
  Q tt (log e s) -> wp (emit e) Q X s.
Proof. exact id. Qed.

Lemma wp_printf fmt args (Q : unit -> state -> Prop) X s :
  Q tt (log (Printf fmt args) s) -> wp (printf fmt args) Q X s.
Proof. exact id. Qed.

Lemma wp_perror msg (Q : unit -> state -> Prop) X s :
  Q tt (log (Perror msg) s) -> wp (perror msg) Q X s.
Proof. exact id. Qed.

Lemma wp_load_inode_refs (i : Z) (Q : Z -> state -> Prop) X s :
  (forall v, 0 <= i -> inode_refs s !! Z.to_nat i = Some v -> Q v s) ->
  X SFault s -> wp (load_inode_refs i) Q X s.
Proof.
  intros HQ HX. unfold wp, load_inode_refs.
  destruct (Z.ltb_spec i 0); [exact HX|].
  destruct (inode_refs s !! Z.to_nat i) eqn:E; [apply HQ; auto | exact HX].
Qed.

Lemma wp_load_block_refs (i : Z) (Q : Z -> state -> Prop) X s :
  (forall v, 0 <= i -> block_refs s !! Z.to_nat i = Some v -> Q v s) ->
  X SFault s -> wp (load_block_refs i) Q X s.
Proof.
  intros HQ HX. unfold wp, load_block_refs.
  destruct (Z.ltb_spec i 0); [exact HX|].
  destruct (block_refs s !! Z.to_nat i) eqn:E; [apply HQ; auto | exact HX].
Qed.

Lemma wp_incr_inode_refs (i : Z) (Q : Z -> state -> Prop) X s :
  (forall v, 0 <= i -> inode_refs s !! Z.to_nat i = Some v ->
     Q (wrap32 (v + 1))
       (mk_state (<[Z.to_nat i := wrap32 (v + 1)]> (inode_refs s)) (block_refs s) (trace s))) ->
  X SFault s -> wp (incr_inode_refs i) Q X s.
Proof.
  intros HQ HX. unfold wp, incr_inode_refs.
  destruct (Z.ltb_spec i 0); [exact HX|].
  destruct (inode_refs s !! Z.to_nat i) eqn:E; [apply HQ; auto | exact HX].
Qed.

Lemma wp_incr_block_refs (i : Z) (Q : Z -> state -> Prop) X s :
  (forall v, 0 <= i -> block_refs s !! Z.to_nat i = Some v ->
     Q (wrap32 (v + 1))
       (mk_state (inode_refs s) (<[Z.to_nat i := wrap32 (v + 1)]> (block_refs s)) (trace s))) ->
  X SFault s -> wp (incr_block_refs i) Q X s.
Proof.
  intros HQ HX. unfold wp, incr_block_refs.
  destruct (Z.ltb_spec i 0); [exact HX|].
  destruct (block_refs s !! Z.to_nat i) eqn:E; [apply HQ; auto | exact HX].
Qed.

Lemma wp_alloc_tables (ibytes bbytes : Z) (Q : unit -> state -> Prop) X s :
  Q tt (mk_state (zeroed ibytes) (zeroed bbytes) (trace s)) ->
  wp (alloc_tables ibytes bbytes) Q X s.
Proof. exact id. Qed.

Section Primitives.
Context `{FsParams} (img : list byte) (g : globals).

Lemma wp_rblock (num : Z) (Q : list byte -> state -> Prop) X s :
  (forall buf, read_at img (wrap32 (num * BSIZE)) BSIZE = Some buf ->
     Q buf (log (Call f_rblock num) s)) ->
  X (SExit 1) (log (Perror "fread") (log (Call f_rblock num) s)) ->
  wp (rblock img num) Q X s.
Proof.
  intros HQ HX. unfold rblock. apply wp_bind, wp_emit.
  destruct (read_at img _ _) as [buf|].
  - apply wp_ret. auto.
  - apply wp_bind, wp_perror, wp_exit, HX.
Qed.

Lemma wp_rinode (inum : Z) (Q : dinode -> state -> Prop) X s :
  (forall buf, read_at img (wrap32 (IBLOCK g inum * BSIZE)) BSIZE = Some buf ->
     Q (decode_dinode buf (inum mod IPB))
       (log (Call f_rblock (IBLOCK g inum)) (log (Call f_rinode inum) s))) ->
  X (SExit 1) (log (Perror "fread")
                 (log (Call f_rblock (IBLOCK g inum)) (log (Call f_rinode inum) s))) ->
  wp (rinode img g inum) Q X s.
Proof.
  intros HQ HX. unfold rinode. apply wp_bind, wp_emit, wp_bind, wp_rblock.
  - intros buf Hb. apply wp_ret. auto.
  - exact HX.
Qed.

Lemma wp_bmapval (num : Z) (Q : Z -> state -> Prop) X s :
  let s1 := log (Call f_rblock (wrap32 (num / 8 / BSIZE + bmapstart g)))
              (log (Call f_bmapval num) s) in
  (forall v, Q v s1) -> X (SExit 1) (log (Perror "fread") s1) -> X SFault s1 ->
  wp (bmapval img g num) Q X s.
Proof.
  intros s1 HQ HX HF. unfold bmapval. apply wp_bind, wp_emit, wp_bind, wp_rblock.
  - intros buf Hb. destruct (buf !! _); [apply wp_ret, HQ | apply wp_fault, HF].
  - exact HX.
Qed.

End Primitives.


Lemma calls_app (f : fn) (l1 l2 : list event) : calls f (l1 ++ l2) = calls f l1 ++ calls f l2.
Proof. unfold calls. apply omap_app. Qed.

(** One step of symbolic execution. *)
Ltac wp_step :=
  cbv zeta;
  lazymatch goal with
  | |- wp (bind _ _) _ _ _ => apply wp_bind
  | |- wp (ret _) _ _ _ => apply wp_ret
  | |- wp (printf _ _) _ _ _ => apply wp_printf
  | |- wp (perror _) _ _ _ => apply wp_perror
  | |- wp (emit _) _ _ _ => apply wp_emit
  | |- wp (exit _) _ _ _ => apply wp_exit
  | |- wp fault _ _ _ => apply wp_fault
  | |- wp timeout _ _ _ => apply wp_timeout
  | |- wp (alloc_tables _ _) _ _ _ => apply wp_alloc_tables
  | |- wp (rblock _ _) _ _ _ => apply wp_rblock; [intros ? ? |]
  | |- wp (rinode _ _ _) _ _ _ => apply wp_rinode; [intros ? ? |]
  | |- wp (bmapval _ _ _) _ _ _ => apply wp_bmapval; [intros ? | |]
  | |- wp (load_inode_refs _) _ _ _ => apply wp_load_inode_refs; [intros ? ? ? |]
  | |- wp (load_block_refs _) _ _ _ => apply wp_load_block_refs; [intros ? ? ? |]
  | |- wp (incr_inode_refs _) _ _ _ => apply wp_incr_inode_refs; [intros ? ? ? |]
  | |- wp (incr_block_refs _) _ _ _ => apply wp_incr_block_refs; [intros ? ? ? |]
  | |- wp (if ?b then _ else _) _ _ _ => destruct b eqn:?
  | |- wp (match ?x with _ => _ end) _ _ _ => destruct x eqn:?
  end.

Lemma trace_stable_frame (I : state -> Prop) : trace_stable I -> frame_stable I.
Proof. intros [H1 H2]. split; auto. Qed.

(** ** What the checker outside the directory walker preserves *)

Create HintDb frame.

Section Frame.
Context `{FsParams} (img : list byte) (g : globals).
Context (I : state -> Prop) (HI : frame_stable I).

Lemma frame_log (e : event) (s : state) : quiet_event e -> I s -> I (log e s).
Proof. apply HI. Qed.

Lemma frame_block_refs (s : state) (br : list Z) :
  I s -> I (mk_state (inode_refs s) br (trace s)).
Proof. apply HI. Qed.

Lemma quiet_printf fmt args : quiet_event (Printf fmt args).
Proof. intros a. discriminate. Qed.
Lemma quiet_perror msg : quiet_event (Perror msg).
Proof. intros a. discriminate. Qed.
Lemma quiet_rblock n : quiet_event (Call f_rblock n).
Proof. intros a. discriminate. Qed.
Lemma quiet_rinode n : quiet_event (Call f_rinode n).
Proof. intros a. discriminate. Qed.
Lemma quiet_bmapval n : quiet_event (Call f_bmapval n).
Proof. intros a. discriminate. Qed.

Lemma halted_intro (k : stop) (s : state) : k <> STimeout -> I s -> halted I k s.
Proof. split; assumption. Qed.

Hint Resolve frame_log frame_block_refs quiet_printf quiet_perror quiet_rblock
  quiet_rinode quiet_bmapval : frame.
Hint Extern 1 (halted _ _ _) => apply halted_intro; [discriminate |] : frame.

Ltac frame_go := repeat wp_step; eauto 8 with frame.

Lemma frame_rblock num s : I s -> wp (rblock img num) (fun _ => I) (halted I) s.
Proof. intros. frame_go. Qed.

Lemma frame_rinode inum s : I s -> wp (rinode img g inum) (fun _ => I) (halted I) s.
Proof. intros. frame_go. Qed.

Lemma frame_bmapval num s : I s -> wp (bmapval img g num) (fun _ => I) (halted I) s.
Proof. intros. frame_go. Qed.

Lemma frame_file_direct f n i last s :
  I s -> wp (file_direct g f n i last) (fun _ => I) (halted I) s.
Proof.
  revert i last s. induction n as [|n IH]; intros i last s Hs; cbn [file_direct].
  - frame_go.
  - frame_go.
Qed.

Lemma frame_file_indirect buf n i s :
  I s -> wp (file_indirect g buf n i) (fun _ => I) (halted I) s.
Proof.
  revert i s. induction n as [|n IH]; intros i s Hs; cbn [file_indirect].
  - frame_go.
  - frame_go.
Qed.

Lemma frame_process_file f s :
  I s -> wp (process_file img g f) (fun _ => I) (halted I) s.
Proof.
  intros Hs. unfold process_file. wp_step; [frame_go|].
  wp_step. eapply wp_mono; [apply frame_file_direct, Hs | | auto].
  intros fl s1 Hs1. cbv beta. frame_go.
  all: apply frame_file_indirect; eauto 8 with frame.
Qed.

Lemma frame_check_dots buf inum s :
  I s -> wp (check_dots buf inum) (fun _ => I) (halted I) s.
Proof. intros. unfold check_dots. frame_go. Qed.

Lemma frame_addr_scan inode n i s :
  I s -> wp (addr_scan img g inode n i) (fun _ => I) (halted I) s.
Proof.
  revert i s. induction n as [|n IH]; intros i s Hs; cbn [addr_scan]; frame_go.
Qed.

Lemma frame_check_inode i s :
  I s -> wp (check_inode img g i) (fun _ => I) (halted I) s.
Proof.
  intros Hs. unfold check_inode. frame_go.
  all: apply frame_addr_scan; eauto 8 with frame.
Qed.

Lemma frame_inode_loop n i s :
  I s -> wp (inode_loop img g n i) (fun _ => I) (halted I) s.
Proof.
  revert i s. induction n as [|n IH]; intros i s Hs; cbn [inode_loop]; [frame_go|].
  wp_step. eapply wp_mono; [apply frame_check_inode, Hs | | auto].
  intros ? s1 Hs1. cbv beta. frame_go.
Qed.

Lemma frame_bitmap_loop n i s :
  I s -> wp (bitmap_loop img g n i) (fun _ => I) (halted I) s.
Proof.
  revert i s. induction n as [|n IH]; intros i s Hs; cbn [bitmap_loop]; frame_go.
Qed.

End Frame.

(** ** Every part of the run only extends the trace *)

Section TraceStable.
Context `{FsParams} (img : list byte) (g : globals).
Context (I : state -> Prop) (HI : trace_stable I).

Lemma stable_is_frame : frame_stable I.
Proof. exact (trace_stable_frame I HI). Qed.

Lemma stable_log (e : event) (s : state) : I s -> I (log e s).
Proof. apply HI. Qed.

Lemma stable_tables (s : state) (ir br : list Z) : I s -> I (mk_state ir br (trace s)).
Proof. apply HI. Qed.

Lemma halted_weaken (k : stop) (s : state) : halted I k s -> I s.
Proof. intros [_ Hs]. exact Hs. Qed.

Hint Resolve stable_log stable_tables : frame.

Lemma stable_process_entry rec de s :
  (forall dir inum s, I s -> wp (rec dir inum) (fun _ => I) (fun _ => I) s) ->
  I s -> wp (process_entry img g rec de) (fun _ => I) (fun _ => I) s.
Proof.
  intros Hrec Hs. unfold process_entry. repeat wp_step; eauto 8 with frame.
  eapply wp_mono; [apply (frame_process_file img g I stable_is_frame) | auto | apply halted_weaken].
  eauto with frame.
Qed.

Lemma stable_scan_dirents rec buf n bdeidx s :
  (forall dir inum s, I s -> wp (rec dir inum) (fun _ => I) (fun _ => I) s) ->
  I s -> wp (scan_dirents img g rec buf n bdeidx) (fun _ => I) (fun _ => I) s.
Proof.
  intros Hrec. revert bdeidx s.
  induction n as [|n IH]; intros bdeidx s Hs; cbn [scan_dirents]; repeat wp_step; auto.
  eapply wp_mono; [apply stable_process_entry; eauto | | auto].
  intros ? s1 Hs1. apply IH, Hs1.
Qed.

Lemma stable_dir_blocks rec dir inum n i s :
  (forall dir inum s, I s -> wp (rec dir inum) (fun _ => I) (fun _ => I) s) ->
  I s -> wp (dir_blocks img g rec dir inum n i) (fun _ => I) (fun _ => I) s.
Proof.
  intros Hrec. revert i s.
  induction n as [|n IH]; intros i s Hs; cbn [dir_blocks]; repeat wp_step; eauto 8 with frame.
  - eapply wp_mono; [apply (frame_check_dots I stable_is_frame) | | apply halted_weaken].
    + eauto 8 with frame.
    + intros bdeidx s1 Hs1. cbv beta. wp_step.
      eapply wp_mono; [apply stable_scan_dirents; eauto | | auto].
      intros ? s2 Hs2. apply IH, Hs2.
  - eapply wp_mono; [apply stable_scan_dirents; eauto 8 with frame | | auto].
    intros ? s2 Hs2. apply IH, Hs2.
Qed.

Lemma stable_recurse_dir fuel dir inum s :
  I s -> wp (recurse_dir img g fuel dir inum) (fun _ => I) (fun _ => I) s.
Proof.
  revert dir inum s. induction fuel as [|fuel IH]; intros dir inum s Hs; cbn [recurse_dir].
  - wp_step. exact Hs.
  - repeat wp_step; eauto 8 with frame.
    apply stable_dir_blocks; eauto with frame.
Qed.

(** Everything [check_image] does after the lookup of the root inode. *)
Lemma stable_check_root fuel root_inode s :
  I s ->
  wp (if negb (d_type root_inode =? T_DIR) then
        let* _ := printf ("ERROR: root directory does not exist." ++ LF) [] in exit 1
      else
        let* buf := rblock img (addr root_inode 0) in
        let parent_dirent := rdirent 1 buf in
        if negb (de_inum parent_dirent =? 1) then
          let* _ := printf ("ERROR: root directory does not exist." ++ LF) [] in exit 1
        else
          let* _ := recurse_dir img g fuel root_inode 1 in
          let* _ := inode_loop img g (Z.to_nat (ninodes g - 2)) 2 in
          let* _ := bitmap_loop img g (Z.to_nat (nblocks g - nmeta g)) (nmeta g) in
          ret 0)
     (fun _ => I) (fun _ => I) s.
Proof.
  intros Hs. repeat wp_step; eauto 8 with frame.
  eapply wp_mono; [apply stable_recurse_dir; eauto with frame | | auto].
  intros ? s1 Hs1. cbv beta. wp_step.
  eapply wp_mono; [apply (frame_inode_loop img g I stable_is_frame), Hs1 | | apply halted_weaken].
  intros ? s2 Hs2. cbv beta. wp_step.
  eapply wp_mono; [apply (frame_bitmap_loop img g I stable_is_frame), Hs2 | | apply halted_weaken].
  intros ? s3 Hs3. cbv beta. wp_step. exact Hs3.
Qed.

End TraceStable.

Lemma first_event_stable (e : event) :
  trace_stable (fun s => exists tr, trace s = e :: tr).
Proof.
  split.
  - intros e' s [tr Htr]. exists (tr ++ [e']). cbn. rewrite Htr. reflexivity.
  - intros s ir br Hs. exact Hs.
Qed.

(** C6, in the form the code satisfies: the superblock is not validated.
    Whatever a readable superblock declares, zero inodes included, the
    layout is computed and the first thing the run does is the lookup of
    inode 1: no diagnostic and no exit come before it. *)
Theorem no_layout_validation `{FsParams} (fuel : nat) (prog path : string)
    (fopen : string -> option (list byte)) (img buf : list byte) :
  fopen path = Some img -> read_at img BSIZE SBSIZE = Some buf ->
  exists tr, trace (final (xcheck fuel [prog; path] fopen)) = Call f_rinode 1 :: tr.
Proof.
  intros Hopen Hread. unfold xcheck, main. cbn [length Nat.eqb negb nth].
  rewrite Hopen. unfold read_superblock. rewrite Hread.
  apply (wp_final _ (fun s => exists tr, trace s = Call f_rinode 1 :: tr)).
  pose proof (first_event_stable (Call f_rinode 1)) as HI.
  assert (Hfirst : forall e, exists tr,
             trace (log e (log (Call f_rinode 1) init_state)) = Call f_rinode 1 :: tr)
    by (intros e; eexists; reflexivity).
  wp_step. wp_step. unfold check_image. wp_step. wp_step. wp_step.
  apply wp_rinode.
  - intros b Hb. apply (stable_check_root img _ _ HI). apply Hfirst.
  - apply HI, Hfirst.
Qed.

(** ** More fuel does not change a run that had enough *)

Lemma refines_refl {A} (m : M A) : refines m m.
Proof. intros s _. reflexivity. Qed.

Lemma refines_bind {A B} (m : M A) (k1 k2 : A -> M B) :
  (forall a, refines (k1 a) (k2 a)) -> refines (bind m k1) (bind m k2).
Proof.
  intros Hk s Hnt. unfold bind in *. destruct (m s) as [a s1|c s1|s1|s1]; try reflexivity.
  apply Hk. exact Hnt.
Qed.

Lemma refines_bind2 {A B} (m1 m2 : M A) (k1 k2 : A -> M B) :
  refines m1 m2 -> (forall a, refines (k1 a) (k2 a)) -> refines (bind m1 k1) (bind m2 k2).
Proof.
  intros Hm Hk s Hnt. unfold bind in *.
  rewrite (Hm s).
  - destruct (m1 s) as [a s1|c s1|s1|s1]; try reflexivity. apply Hk. exact Hnt.
  - intros s' E. rewrite E in Hnt. exact (Hnt s' eq_refl).
Qed.

Section Fuel.
Context `{FsParams} (img : list byte) (g : globals).
Variables rec1 rec2 : dinode -> Z -> M unit.
Hypothesis Hrec : forall dir inum, refines (rec1 dir inum) (rec2 dir inum).

Lemma refines_process_entry de :
  refines (process_entry img g rec1 de) (process_entry img g rec2 de).
Proof.
  unfold process_entry. apply refines_bind. intros cur.
  destruct (_ || _); [apply refines_refl|].
  apply refines_bind. intros _.
  destruct (d_type cur =? T_DIR); [|apply refines_refl].
  apply refines_bind. intros r. destruct (r >? 1); [apply refines_refl | apply Hrec].
Qed.

Lemma refines_scan_dirents buf n bdeidx :
  refines (scan_dirents img g rec1 buf n bdeidx) (scan_dirents img g rec2 buf n bdeidx).
Proof.
  revert bdeidx. induction n as [|n IH]; intros bdeidx; cbn [scan_dirents].
  - apply refines_refl.
  - destruct (_ =? 0); [apply refines_refl|].
    apply refines_bind2; [apply refines_process_entry | intros _; apply IH].
Qed.

Lemma refines_dir_blocks dir inum n i :
  refines (dir_blocks img g rec1 dir inum n i) (dir_blocks img g rec2 dir inum n i).
Proof.
  revert i. induction n as [|n IH]; intros i; cbn [dir_blocks].
  - apply refines_refl.
  - destruct (_ =? 0); [apply refines_refl|].
    destruct (negb _); [apply refines_refl|].
    apply refines_bind. intros _. apply refines_bind. intros buf.
    apply refines_bind. intros bdeidx.
    apply refines_bind2; [apply refines_scan_dirents | intros _; apply IH].
Qed.

End Fuel.

Lemma recurse_dir_more_fuel `{FsParams} (img : list byte) (g : globals) (fuel : nat)
    (dir : dinode) (inum : Z) :
  refines (recurse_dir img g fuel dir inum) (recurse_dir img g (S fuel) dir inum).
Proof.
  revert dir inum. induction fuel as [|fuel IH]; intros dir inum.
  - intros s Hnt. exfalso. exact (Hnt s eq_refl).
  - cbn [recurse_dir]. apply refines_bind. intros _.
    destruct (negb _); [apply refines_refl|].
    apply refines_dir_blocks. exact IH.
Qed.

Lemma recurse_dir_fuel_le `{FsParams} (img : list byte) (g : globals) (fuel fuel' : nat)
    (dir : dinode) (inum : Z) :
  (fuel <= fuel')%nat ->
  refines (recurse_dir img g fuel dir inum) (recurse_dir img g fuel' dir inum).
Proof.
  induction 1 as [|fuel' Hle IH]; [apply refines_refl|].
  intros s Hnt. rewrite <- (IH s Hnt). apply recurse_dir_more_fuel.
  intros s'. rewrite (IH s Hnt). apply Hnt.
Qed.

(** ** The directory walk: bounded entries and termination *)

Lemma wp_load_inode_refs_some (i v : Z) (Q : Z -> state -> Prop) X s :
  0 <= i -> inode_refs s !! Z.to_nat i = Some v -> Q v s -> wp (load_inode_refs i) Q X s.
Proof.
  intros Hi Hv HQ. unfold wp, load_inode_refs.
  destruct (Z.ltb_spec i 0); [lia|]. rewrite Hv. exact HQ.
Qed.

Lemma unvisited_le (isd : nat -> bool) (k : nat) (l : list Z) :
  (unvisited isd k l <= length l)%nat.
Proof.
  revert k. induction l as [|v l IH]; intros k; cbn; [lia|].
  specialize (IH (S k)). destruct (isd k && (v =? 0)); lia.
Qed.

Lemma unvisited_insert_other (isd : nat -> bool) (k i : nat) (l : list Z) (v : Z) :
  isd (k + i)%nat = false -> unvisited isd k (<[i := v]> l) = unvisited isd k l.
Proof.
  revert k i. induction l as [|a l IH]; intros k i Hd; [reflexivity|].
  destruct i as [|i]; cbn.
  - rewrite Nat.add_0_r in Hd. rewrite Hd. reflexivity.
  - rewrite IH; [reflexivity|]. rewrite <- Hd. f_equal. lia.
Qed.

Lemma unvisited_insert_visit (isd : nat -> bool) (k i : nat) (l : list Z) (v : Z) :
  l !! i = Some 0 -> isd (k + i)%nat = true -> v <> 0 ->
  S (unvisited isd k (<[i := v]> l)) = unvisited isd k l.
Proof.
  revert k i. induction l as [|a l IH]; intros k i Hl Hd Hv; [discriminate|].
  destruct i as [|i]; cbn in *.
  - injection Hl as ->. rewrite Nat.add_0_r in Hd. rewrite Hd. cbn.
    destruct (Z.eqb_spec v 0); [contradiction | reflexivity].
  - rewrite <- (IH (S k) i Hl); [symmetry; apply Nat.add_succ_r | | exact Hv].
    rewrite <- Hd. f_equal. lia.
Qed.

Lemma ref_of_insert_eq (refs : list Z) (x v0 v : Z) :
  0 <= x -> refs !! Z.to_nat x = Some v0 -> ref_of (<[Z.to_nat x := v]> refs) x = v.
Proof.
  intros Hx Hl. unfold ref_of. destruct (Z.ltb_spec x 0); [lia|].
  rewrite list_lookup_insert_eq; [reflexivity|]. eapply lookup_lt_Some, Hl.
Qed.

Lemma ref_of_insert_ne (refs : list Z) (x y v : Z) :
  0 <= x -> y <> x -> ref_of (<[Z.to_nat x := v]> refs) y = ref_of refs y.
Proof.
  intros Hx Hy. unfold ref_of. destruct (Z.ltb_spec y 0); [reflexivity|].
  rewrite list_lookup_insert_ne; [reflexivity | lia].
Qed.

Lemma ref_of_lookup (refs : list Z) (x v : Z) :
  0 <= x -> refs !! Z.to_nat x = Some v -> ref_of refs x = v.
Proof.
  intros Hx Hl. unfold ref_of. destruct (Z.ltb_spec x 0); [lia|]. rewrite Hl. reflexivity.
Qed.

Lemma enters_log_quiet (x : Z) (e : event) (s : state) :
  quiet_event e -> enters x (trace (log e s)) = enters x (trace s).
Proof.
  intros He. unfold enters. cbn [log trace]. rewrite calls_app, count_occ_app.
  replace (calls f_recurse_dir [e]) with (@nil Z); [cbn; apply Nat.add_0_r|].
  destruct e as [| |f a]; try reflexivity.
  destruct f; try reflexivity. exfalso. exact (He a eq_refl).
Qed.

Lemma enters_log_call (x y : Z) (s : state) :
  enters x (trace (log (Call f_recurse_dir y) s))
  = (enters x (trace s) + (if bool_decide (Some y = Some x) then 1 else 0))%nat.
Proof.
  unfold enters. cbn [log trace]. rewrite calls_app, count_occ_app. f_equal.
  change (calls f_recurse_dir [Call f_recurse_dir y]) with [y]. cbn.
  destruct (Z.eq_dec y x) as [->|Hne].
  - rewrite bool_decide_eq_true_2; reflexivity.
  - rewrite bool_decide_eq_false_2; [reflexivity | congruence].
Qed.

Section Walk.
Context `{FsParams} (img : list byte) (g : globals) (origin : Z).

#[local] Abbreviation inv := (walk_inv img g origin).
#[local] Abbreviation stop_ok := (walk_stop img g origin).
#[local] Abbreviation entered := (entered_upto img g origin).
#[local] Abbreviation at_most := (dirs_at_most img g).
#[local] Abbreviation left_to_visit := (to_visit img g).

Lemma entered_log_quiet extra e s : quiet_event e -> entered extra s -> entered extra (log e s).
Proof. intros He Hs x. rewrite enters_log_quiet by assumption. apply Hs. Qed.

Lemma walk_inv_frame B : frame_stable (inv B).
Proof.
  split.
  - intros e s He (H1 & H2 & H3).
    split; [exact H1|]. split; [apply entered_log_quiet; assumption | exact H3].
  - intros s br Hs. exact Hs.
Qed.

Lemma walk_stop_of_inv B k s : k <> STimeout -> inv B s -> stop_ok k s.
Proof. intros Hk (H1 & H2 & _). split; [exact Hk|]. split; [exact H2 | left; exact H1]. Qed.

Lemma halted_walk_stop B k s : halted (inv B) k s -> stop_ok k s.
Proof. intros [Hk Hs]. eapply walk_stop_of_inv; eassumption. Qed.

Lemma is_dir_read x buf :
  read_at img (wrap32 (IBLOCK g x * BSIZE)) BSIZE = Some buf ->
  is_dir img g x = (d_type (decode_dinode buf (x mod IPB)) =? T_DIR).
Proof. intros Hb. unfold is_dir, inode_at. rewrite Hb. reflexivity. Qed.

(** The state after [++inode_refs[x]]. *)
Lemma at_most_insert n s x v :
  0 <= x -> at_most n s -> (is_dir img g x = true -> 0 <= v <= n) ->
  at_most n (mk_state (<[Z.to_nat x := v]> (inode_refs s)) (block_refs s) (trace s)).
Proof.
  intros Hx Hs Hv y w Hy Hd Hl. cbn in Hl.
  destruct (Z.eq_dec y x) as [->|Hne].
  - apply list_lookup_insert_Some in Hl as [(_ & <- & _)|(Hc & _)]; [auto | congruence].
  - rewrite list_lookup_insert_ne in Hl by lia. eapply Hs; eassumption.
Qed.

Lemma entered_insert_other s x v :
  0 <= x -> is_dir img g x = false -> entered None s ->
  entered None (mk_state (<[Z.to_nat x := v]> (inode_refs s)) (block_refs s) (trace s)).
Proof.
  intros Hx Hd Hs y. specialize (Hs y). cbn [inode_refs trace] in *.
  destruct (Z.eq_dec y x) as [->|Hne].
  - rewrite Hd in *. exact Hs.
  - rewrite ref_of_insert_ne by assumption. exact Hs.
Qed.

Lemma entered_insert_visit s x v :
  0 <= x -> inode_refs s !! Z.to_nat x = Some 0 -> is_dir img g x = true -> v <> 0 ->
  entered None s ->
  entered (Some x) (mk_state (<[Z.to_nat x := v]> (inode_refs s)) (block_refs s) (trace s)).
Proof.
  intros Hx Hl Hd Hv Hs y. specialize (Hs y). cbn [inode_refs trace] in *.
  destruct (Z.eq_dec y x) as [->|Hne].
  - rewrite (ref_of_insert_eq _ _ _ _ Hx Hl), Hd.
    rewrite (ref_of_lookup _ _ _ Hx Hl), Hd in Hs. cbn in Hs.
    rewrite bool_decide_eq_true_2 by reflexivity.
    destruct (Z.eqb_spec v 0); [contradiction|]. cbn.
    destruct (x =? origin); cbn in *; lia.
  - rewrite ref_of_insert_ne by assumption.
    rewrite bool_decide_eq_false_2 by congruence.
    rewrite bool_decide_eq_false_2 in Hs by congruence. exact Hs.
Qed.

Lemma entered_insert_again s x v :
  0 <= x -> is_dir img g x = true -> v <> 0 -> entered None s ->
  entered None (mk_state (<[Z.to_nat x := v]> (inode_refs s)) (block_refs s) (trace s)).
Proof.
  intros Hx Hd Hv Hs y. specialize (Hs y). cbn [inode_refs trace] in *.
  destruct (Z.eq_dec y x) as [->|Hne].
  - destruct (inode_refs s !! Z.to_nat x) as [v0|] eqn:Hl.
    + rewrite (ref_of_insert_eq _ _ _ _ Hx Hl), Hd.
      destruct (Z.eqb_spec v 0); [contradiction|]. cbn.
      destruct (is_dir img g x && negb (ref_of (inode_refs s) x =? 0)), (x =? origin);
        cbn in *; lia.
    + rewrite list_insert_ge by (apply lookup_ge_None; exact Hl). exact Hs.
  - rewrite ref_of_insert_ne by assumption. exact Hs.
Qed.

Lemma to_visit_insert_other s x v :
  0 <= x -> is_dir img g x = false ->
  left_to_visit (mk_state (<[Z.to_nat x := v]> (inode_refs s)) (block_refs s) (trace s))
  = left_to_visit s.
Proof.
  intros Hx Hd. unfold to_visit. cbn [inode_refs].
  apply unvisited_insert_other. unfold dir_index. cbn. rewrite Z2Nat.id by lia. exact Hd.
Qed.

Lemma to_visit_insert_visit s x v :
  0 <= x -> inode_refs s !! Z.to_nat x = Some 0 -> is_dir img g x = true -> v <> 0 ->
  S (left_to_visit (mk_state (<[Z.to_nat x := v]> (inode_refs s)) (block_refs s) (trace s)))
  = left_to_visit s.
Proof.
  intros Hx Hl Hd Hv. unfold to_visit. cbn [inode_refs].
  apply unvisited_insert_visit; [exact Hl | | exact Hv].
  unfold dir_index. cbn. rewrite Z2Nat.id by lia. exact Hd.
Qed.

Section Entries.
Variable F : nat.
Variable rec : dinode -> Z -> M unit.
Hypothesis Hrec : forall dir x s,
  at_most 1 s -> entered (Some x) s -> (left_to_visit s < F)%nat ->
  wp (rec dir x)
     (fun _ s' => at_most 1 s' /\ entered None s' /\ (left_to_visit s' < F)%nat)
     stop_ok s.

Lemma walk_process_entry de s :
  inv F s -> wp (process_entry img g rec de) (fun _ => inv F) stop_ok s.
Proof.
  intros Hs. unfold process_entry. set (x := de_inum de).
  pose proof (walk_inv_frame F) as HF.
  wp_step. apply wp_rinode.
  2:{ eapply walk_stop_of_inv; [discriminate|]. repeat apply HF; try discriminate; exact Hs. }
  intros buf Hb. pose proof (is_dir_read x buf Hb) as Hdir.
  set (cur := decode_dinode buf (x mod IPB)) in *.
  set (s1 := log _ (log _ s)).
  assert (Hs1 : inv F s1) by (repeat apply HF; try (intros ?; discriminate); exact Hs).
  clearbody s1. clear Hs s.
  wp_step.
  { wp_step. wp_step. wp_step. eapply walk_stop_of_inv; [discriminate|].
    apply HF; [intros ?; discriminate | exact Hs1]. }
  wp_step. apply wp_incr_inode_refs.
  2:{ eapply walk_stop_of_inv; [discriminate | exact Hs1]. }
  intros v Hx Hv. destruct Hs1 as (Hone & Hent & Hvis).
  destruct (d_type cur =? T_DIR) eqn:Et.
  - (* a directory *)
    assert (Hv01 : 0 <= v <= 1) by (eapply Hone; eassumption).
    wp_step. apply (wp_load_inode_refs_some _ (wrap32 (v + 1))); [exact Hx | |].
    { cbn. apply list_lookup_insert_eq. eapply lookup_lt_Some, Hv. }
    assert (Hw : wrap32 (v + 1) = v + 1) by (apply Z.mod_small; lia).
    rewrite Hw.
    destruct (Z.gtb_spec (v + 1) 1) as [Hgt|Hle].
    + (* counted before: reported, no recursion *)
      assert (v = 1) by lia. subst v.
      wp_step. wp_step. wp_step.
      split; [discriminate|]. split.
      * apply entered_log_quiet; [intros ?; discriminate|].
        apply entered_insert_again; [exact Hx | exact Hdir | discriminate | exact Hent].
      * right. split; [reflexivity|]. split.
        -- apply (at_most_insert 2 s1 x 2 Hx); [|lia].
           intros y w Hy Hd Hl. specialize (Hone y w Hy Hd Hl). lia.
        -- cbn [log trace]. apply last_snoc.
    + (* first visit *)
      assert (v = 0) by lia. subst v.
      eapply wp_mono; [apply Hrec | | auto].
      * apply at_most_insert; [exact Hx | exact Hone | lia].
      * apply entered_insert_visit; [exact Hx | exact Hv | exact Hdir | discriminate | exact Hent].
      * pose proof (to_visit_insert_visit s1 x (0 + 1) Hx Hv Hdir ltac:(discriminate)). lia.
      * intros ? s' (H1 & H2 & H3). split; [exact H1|]. split; [exact H2 | lia].
  - (* a file or device *)
    eapply wp_mono; [apply (frame_process_file img g (inv F) HF) | auto | apply halted_walk_stop].
    split; [|split].
    + apply at_most_insert; [exact Hx | exact Hone |]. rewrite Hdir. discriminate.
    + apply entered_insert_other; [exact Hx | exact Hdir | exact Hent].
    + rewrite to_visit_insert_other; [exact Hvis | exact Hx | exact Hdir].
Qed.

Lemma walk_scan_dirents buf n bdeidx s :
  inv F s -> wp (scan_dirents img g rec buf n bdeidx) (fun _ => inv F) stop_ok s.
Proof.
  revert bdeidx s.
  induction n as [|n IH]; intros bdeidx s Hs; cbn [scan_dirents]; repeat wp_step; auto.
  eapply wp_mono; [apply walk_process_entry, Hs | | auto].
  intros ? s1 Hs1. apply IH, Hs1.
Qed.

Lemma walk_dir_blocks dir inum n i s :
  inv F s -> wp (dir_blocks img g rec dir inum n i) (fun _ => inv F) stop_ok s.
Proof.
  pose proof (walk_inv_frame F) as HF.
  assert (Hq : forall e s, quiet_event e -> inv F s -> inv F (log e s)) by apply HF.
  assert (Hb : forall s br, inv F s -> inv F (mk_state (inode_refs s) br (trace s)))
    by apply HF.
  revert i s.
  induction n as [|n IH]; intros i s Hs; cbn [dir_blocks]; repeat wp_step; auto.
  - eapply walk_stop_of_inv; [discriminate|]. apply Hq; [intros ?; discriminate | exact Hs].
  - eapply wp_mono; [apply (frame_check_dots (inv F) HF) | | apply halted_walk_stop].
    + apply Hq; [intros ?; discriminate|]. apply Hb, Hs.
    + intros bdeidx s1 Hs1. cbv beta. wp_step.
      eapply wp_mono; [apply walk_scan_dirents, Hs1 | | auto].
      intros ? s2 Hs2. apply IH, Hs2.
  - eapply wp_mono; [apply walk_scan_dirents | | auto].
    + apply Hq; [intros ?; discriminate|]. apply Hb, Hs.
    + intros ? s2 Hs2. apply IH, Hs2.
  - eapply walk_stop_of_inv; [discriminate|].
    repeat (apply Hq; [intros ?; discriminate|]). apply Hb, Hs.
  - eapply walk_stop_of_inv; [discriminate | exact Hs].
Qed.

End Entries.

Lemma walk_recurse_dir fuel dir x s :
  at_most 1 s -> entered (Some x) s -> (left_to_visit s < fuel)%nat ->
  wp (recurse_dir img g fuel dir x)
     (fun _ s' => at_most 1 s' /\ entered None s' /\ (left_to_visit s' < fuel)%nat)
     stop_ok s.
Proof.
  revert dir x s. induction fuel as [|fuel IH]; intros dir x s Hone Hent Hvis; [lia|].
  cbn [recurse_dir].
  assert (Hs1 : inv fuel (log (Call f_recurse_dir x) s)).
  { split; [exact Hone|]. split; [|cbn; unfold to_visit in *; cbn in *; lia].
    intros y. specialize (Hent y). rewrite enters_log_call.
    cbn [log inode_refs] in *.
    repeat case_bool_decide; simplify_eq; lia. }
  wp_step. wp_step. wp_step.
  - wp_step. wp_step. wp_step. eapply walk_stop_of_inv; [discriminate|].
    apply (walk_inv_frame fuel); [intros ?; discriminate | exact Hs1].
  - eapply wp_mono; [apply (walk_dir_blocks fuel (recurse_dir img g fuel) IH), Hs1 | | auto].
    intros ? s' (H1 & H2 & H3). split; [exact H1|]. split; [exact H2 | lia].
Qed.

End Walk.

Lemma refs_all : frame_stable (fun _ : state => True).
Proof. split; intros; exact Logic.I. Qed.

(** C7, in the form the code satisfies: a directory whose count exceeds 1
    is reported and the run exits before any recursion into it, so no
    directory is entered more than once through a directory entry; the
    directory the walk started from, whose first visit is not counted, can
    be entered once more.  With the reference table zeroed and more fuel
    than the table has entries, the walk never runs out of fuel and more
    fuel does not change its outcome: it terminates on every image, cycles
    included. *)
Theorem traversal_bounded `{FsParams} (img : list byte) (g : globals) (fuel : nat)
    (dir : dinode) (inum : Z) (s : state) :
  inode_refs s = replicate (length (inode_refs s)) 0 ->
  calls f_recurse_dir (trace s) = [] ->
  (length (inode_refs s) < fuel)%nat ->
  let o := recurse_dir img g fuel dir inum s in
  (forall s', o <> Timeout s')
  /\ (forall fuel', (fuel <= fuel')%nat -> recurse_dir img g fuel' dir inum s = o)
  /\ (forall x, (enters x (trace (final o)) <= if (x =? inum)%Z then 2 else 1)%nat)
  /\ (forall x v, 0 <= x -> is_dir img g x = true ->
        inode_refs (final o) !! Z.to_nat x = Some v ->
        v <= 1 \/ (o = Exit 1 (final o) /\ last (trace (final o)) = Some (Printf dup_msg []))).
Proof.
  intros Hz Hc Hfuel o.
  assert (Hw : wp (recurse_dir img g fuel dir inum)
                 (fun _ s' => dirs_at_most img g 1 s' /\ entered_upto img g inum None s'
                              /\ (to_visit img g s' < fuel)%nat)
                 (walk_stop img g inum) s).
  { apply walk_recurse_dir.
    - intros x v Hx Hd Hl. rewrite Hz in Hl. apply lookup_replicate in Hl as [-> _]. lia.
    - intros x. unfold enters. rewrite Hc. cbn [count_occ].
      case_bool_decide; simplify_eq; [rewrite Z.eqb_refl|]; lia.
    - pose proof (unvisited_le (dir_index img g) 0 (inode_refs s)). unfold to_visit. lia. }
  assert (Hbound : forall s', entered_upto img g inum None s' ->
            forall x, (enters x (trace s') <= if (x =? inum)%Z then 2 else 1)%nat).
  { intros s' He x. specialize (He x). rewrite bool_decide_eq_false_2 in He by discriminate.
    destruct (x =? inum), (is_dir img g x && negb (ref_of (inode_refs s') x =? 0)); lia. }
  assert (Hmore : (forall s', o <> Timeout s') ->
            forall fuel', (fuel <= fuel')%nat -> recurse_dir img g fuel' dir inum s = o).
  { intros Hnt fuel' Hle. apply recurse_dir_fuel_le; assumption. }
  unfold wp in Hw. fold o in Hw. fold o in Hmore.
  destruct o as [[] s'|c s'|s'|s'] eqn:Ho; cbn [final].
  - destruct Hw as (H1 & H2 & _). split; [discriminate|].
    split; [apply Hmore; discriminate|]. split; [exact (Hbound s' H2)|].
    intros x v Hx Hd Hl. left. eapply H1; eassumption.
  - destruct Hw as (_ & H2 & H3). split; [discriminate|].
    split; [apply Hmore; discriminate|]. split; [exact (Hbound s' H2)|].
    intros x v Hx Hd Hl. destruct H3 as [H3|(Hk & _ & Hlast)].
    + left. eapply H3; eassumption.
    + right. injection Hk as ->. split; [reflexivity | exact Hlast].
  - destruct Hw as (_ & H2 & H3). split; [discriminate|].
    split; [apply Hmore; discriminate|]. split; [exact (Hbound s' H2)|].
    intros x v Hx Hd Hl. destruct H3 as [H3|(Hk & _)]; [|discriminate].
    left. eapply H3; eassumption.
  - destruct Hw as (Hk & _). contradiction.
Qed.

(** The whole check after the layout never runs out of fuel either, given
    more fuel than the inode reference table has entries. *)
Lemma check_image_terminates `{FsParams} (img : list byte) (g : globals) (fuel : nat)
    (s : state) :
  calls f_recurse_dir (trace s) = [] ->
  (length (zeroed (wrap32 (sb_ninodes (sb g) * BSIZE))) < fuel)%nat ->
  forall s', check_image img g fuel s <> Timeout s'.
Proof.
  intros Hc Hfuel.
  assert (Hw : wp (check_image img g fuel) (fun _ _ => True) (fun k _ => k <> STimeout) s).
  { pose proof (refs_all : frame_stable (fun _ => True)) as HT.
    assert (Hh : forall k st, halted (fun _ => True) k st -> k <> STimeout)
      by (intros k st [Hk _]; exact Hk).
    unfold check_image. wp_step. wp_step. wp_step. apply wp_rinode; [|discriminate].
    intros buf0 Hb0. wp_step; [repeat wp_step; discriminate|].
    wp_step. apply wp_rblock; [|discriminate].
    intros buf1 Hb1. wp_step; [repeat wp_step; discriminate|].
    wp_step. eapply wp_mono; [apply (walk_recurse_dir img g 1) | | ].
    - intros x v Hx Hd Hl. cbn [log inode_refs] in Hl. unfold zeroed in Hl.
      apply lookup_replicate in Hl as [-> _]. lia.
    - intros x. unfold enters. cbn [log trace inode_refs].
      replace (calls f_recurse_dir _) with (@nil Z)
        by (rewrite !calls_app, Hc; reflexivity).
      cbn [count_occ].
      case_bool_decide; simplify_eq; [rewrite Z.eqb_refl|]; lia.
    - pose proof (unvisited_le (dir_index img g) 0
                    (zeroed (wrap32 (sb_ninodes (sb g) * BSIZE)))).
      unfold to_visit. cbn [log inode_refs]. lia.
    - intros ? s1 _. cbv beta. wp_step.
      eapply wp_mono; [apply (frame_inode_loop img g _ HT); exact Logic.I | | exact Hh].
      intros ? s2 _. cbv beta. wp_step.
      eapply wp_mono; [apply (frame_bitmap_loop img g _ HT); exact Logic.I | | exact Hh].
      intros ? s3 _. cbv beta. wp_step. exact Logic.I.
    - intros k st (Hk & _). exact Hk. }
  intros s' E. unfold wp in Hw. rewrite E in Hw. exact (Hw eq_refl).
Qed.

(** ** The directory walk: what is counted *)

Lemma length_bump (refs : list Z) (x : Z) : length (bump refs x) = length refs.
Proof. apply length_insert. Qed.

Lemma length_bump_all (l : list Z) (refs : list Z) :
  length (fold_left bump l refs) = length refs.
Proof.
  revert refs. induction l as [|y l IH]; intros refs; cbn; [reflexivity|].
  rewrite IH. apply length_bump.
Qed.

Lemma bumped_nil (refs : list Z) : bumped refs [] refs.
Proof. split; [reflexivity | constructor]. Qed.

Lemma bumped_app (refs refs1 refs2 : list Z) (l1 l2 : list Z) :
  bumped refs l1 refs1 -> bumped refs1 l2 refs2 -> bumped refs (l1 ++ l2) refs2.
Proof.
  intros [-> V1] [-> V2]. split.
  - symmetry. apply fold_left_app.
  - apply Forall_app. split; [exact V1|]. rewrite length_bump_all in V2. exact V2.
Qed.

Lemma bumped_one (refs : list Z) (x v : Z) :
  0 <= x -> refs !! Z.to_nat x = Some v ->
  bumped refs [x] (<[Z.to_nat x := wrap32 (v + 1)]> refs).
Proof.
  intros Hx Hl. split.
  - cbn. unfold bump. rewrite (ref_of_lookup _ _ _ Hx Hl). reflexivity.
  - constructor; [|constructor]. apply lookup_lt_Some in Hl. lia.
Qed.

Lemma ref_of_bump_all (l : list Z) (refs : list Z) (x : Z) :
  Forall (fun y => 0 <= y < Z.of_nat (length refs)) l ->
  wrap32 (ref_of (fold_left bump l refs) x)
  = wrap32 (ref_of refs x + Z.of_nat (count_occ Z.eq_dec l x)).
Proof.
  revert refs. induction l as [|y l IH]; intros refs Hv.
  - cbn. rewrite Z.add_0_r. reflexivity.
  - apply Forall_cons in Hv as [Hy Hv]. cbn [fold_left].
    rewrite IH by (rewrite length_bump; exact Hv).
    destruct (lookup_lt_is_Some_2 refs (Z.to_nat y) ltac:(lia)) as [v Hl].
    cbn [count_occ]. destruct (Z.eq_dec y x) as [->|Hne].
    + unfold bump. rewrite (ref_of_insert_eq _ _ _ _ (proj1 Hy) Hl).
      unfold wrap32. rewrite Zplus_mod_idemp_l. f_equal. lia.
    + unfold bump. rewrite ref_of_insert_ne by (try apply Hy; congruence). reflexivity.
Qed.

Section Count.
Context `{FsParams} (img : list byte) (g : globals).

Lemma refs_frame (refs : list Z) : frame_stable (fun s => inode_refs s = refs).
Proof. split; intros; assumption. Qed.

Lemma count_check_dots buf inum s :
  wp (check_dots buf inum)
     (fun b s' => b = 2%nat /\ inode_refs s' = inode_refs s) (fun _ _ => True) s.
Proof. unfold check_dots. repeat wp_step; auto. Qed.

Section Entries.
Variable rec : dinode -> Z -> M unit.
Variable below : dinode -> list Z.
Hypothesis Hrec : forall dir x s,
  wp (rec dir x) (fun _ s' => bumped (inode_refs s) (below dir) (inode_refs s'))
     (fun _ _ => True) s.

Lemma count_process_entry de s :
  wp (process_entry img g rec de)
     (fun _ s' => bumped (inode_refs s) (counted_entry img g below (de_inum de)) (inode_refs s'))
     (fun _ _ => True) s.
Proof.
  unfold process_entry, counted_entry. set (x := de_inum de).
  wp_step. apply wp_rinode; [|exact Logic.I].
  intros buf Hb. unfold inode_at. rewrite Hb.
  set (cur := decode_dinode buf (x mod IPB)).
  wp_step; [repeat wp_step; exact Logic.I|].
  wp_step. apply wp_incr_inode_refs; [|exact Logic.I].
  intros v Hx Hv. cbn [log inode_refs] in Hv.
  pose proof (bumped_one _ _ _ Hx Hv) as Hone.
  destruct (d_type cur =? T_DIR).
  - wp_step. wp_step; [|exact Logic.I]. wp_step; [repeat wp_step; exact Logic.I|].
    eapply wp_mono; [apply Hrec | | auto].
    intros ? s' Hb'. cbn [inode_refs] in Hb'.
    exact (bumped_app _ _ _ [x] _ Hone Hb').
  - eapply wp_mono;
      [apply (frame_process_file img g _
                (refs_frame (<[Z.to_nat x := wrap32 (v + 1)]> (inode_refs s)))); reflexivity
      | | auto].
    intros ? s' Hs'. cbn beta in Hs'. rewrite Hs'. exact Hone.
Qed.

Lemma count_scan_dirents buf n bdeidx s :
  wp (scan_dirents img g rec buf n bdeidx)
     (fun _ s' => bumped (inode_refs s)
                    (flat_map (counted_entry img g below) (live_from buf n bdeidx))
                    (inode_refs s'))
     (fun _ _ => True) s.
Proof.
  revert bdeidx s. induction n as [|n IH]; intros bdeidx s; cbn [scan_dirents live_from].
  - wp_step. apply bumped_nil.
  - unfold rdirent. destruct (de_inum (decode_dirent buf (Z.of_nat bdeidx)) =? 0).
    + wp_step. apply bumped_nil.
    + wp_step. eapply wp_mono; [apply count_process_entry | | auto].
      intros ? s1 H1. eapply wp_mono; [apply IH | | auto].
      intros ? s2 H2. cbn [flat_map]. exact (bumped_app _ _ _ _ _ H1 H2).
Qed.

Lemma count_dir_blocks dir inum n i s :
  wp (dir_blocks img g rec dir inum n i)
     (fun _ s' => bumped (inode_refs s) (counted_blocks img g below dir n i) (inode_refs s'))
     (fun _ _ => True) s.
Proof.
  revert i s. induction n as [|n IH]; intros i s; cbn [dir_blocks counted_blocks].
  - wp_step. apply bumped_nil.
  - destruct (addr dir i =? 0); [wp_step; apply bumped_nil|].
    wp_step; [repeat wp_step; exact Logic.I|].
    wp_step. wp_step; [|exact Logic.I]. wp_step. apply wp_rblock; [|exact Logic.I].
    intros buf Hb. rewrite Hb. wp_step.
    assert (Hstart : forall s0,
      inode_refs s0 = inode_refs s ->
      wp (let* _ := scan_dirents img g rec buf (DPB - first_counted i) (first_counted i) in
          dir_blocks img g rec dir inum n (S i))
         (fun _ s' => bumped (inode_refs s)
            (flat_map (counted_entry img g below) (counted_in_block i buf)
             ++ counted_blocks img g below dir n (S i))
            (inode_refs s'))
         (fun _ _ => True) s0).
    { intros s0 Hs0. wp_step. eapply wp_mono; [apply count_scan_dirents | | auto].
      intros ? s1 Hb1. eapply wp_mono; [apply IH | | auto].
      intros ? s2 Hb2. rewrite Hs0 in Hb1. exact (bumped_app _ _ _ _ _ Hb1 Hb2). }
    unfold first_counted in Hstart. destruct (Nat.eqb i 0).
    + eapply wp_mono; [apply count_check_dots | | auto].
      intros b s1 [-> Hs1]. apply Hstart. exact Hs1.
    + wp_step. apply Hstart. reflexivity.
Qed.

End Entries.

Lemma count_recurse_dir fuel dir inum s :
  wp (recurse_dir img g fuel dir inum)
     (fun _ s' => bumped (inode_refs s) (counted img g fuel dir) (inode_refs s'))
     (fun _ _ => True) s.
Proof.
  revert dir inum s. induction fuel as [|fuel IH]; intros dir inum s; cbn [recurse_dir counted].
  - wp_step. exact Logic.I.
  - wp_step. wp_step. wp_step; [repeat wp_step; exact Logic.I|].
    exact (count_dir_blocks (recurse_dir img g fuel) (counted img g fuel) IH
             dir inum NDIRECT 0%nat (log (Call f_recurse_dir inum) s)).
Qed.

End Count.

(** C10: the entries in slots 0 and 1 of a directory's first data block
    never count.  When the walk of a directory returns, the reference table
    has grown by exactly the counted entries: those from slot 2 on in each
    directory's first block and from slot 0 on in its other blocks, up to
    the first free slot of each block, over all directories walked.  The
    count of an inode thus is, modulo 2^32, the number of these entries
    that name it. *)
Theorem dot_entries_not_counted `{FsParams} (img : list byte) (g : globals) (fuel : nat)
    (dir : dinode) (inum : Z) (s s' : state) :
  recurse_dir img g fuel dir inum s = Ret tt s' ->
  inode_refs s' = fold_left bump (counted img g fuel dir) (inode_refs s)
  /\ (forall i buf, counted_in_block i buf
                    = live_from buf (DPB - (if Nat.eqb i 0 then 2 else 0))
                        (if Nat.eqb i 0 then 2 else 0)%nat)
  /\ (forall x, wrap32 (ref_of (inode_refs s') x)
                = wrap32 (ref_of (inode_refs s) x
                          + Z.of_nat (count_occ Z.eq_dec (counted img g fuel dir) x))).
Proof.
  intros Hrun. pose proof (count_recurse_dir img g fuel dir inum s) as Hw.
  unfold wp in Hw. rewrite Hrun in Hw. destruct Hw as [Heq Hv].
  split; [exact Heq|]. split; [reflexivity|].
  intros x. rewrite Heq. apply ref_of_bump_all, Hv.
Qed.

(** ** The range check before the indirect block *)

(** When the loop over the direct addresses of [process_file] runs to its
    end, the local [bp] holds an address that [check_bp] has accepted: the
    test of [bp] that follows the loop can never fail, whatever the
    indirect address is. *)
Lemma file_direct_last_checked `{FsParams} (g : globals) (f : dinode) (n i : nat)
    (last : option Z) (s : state) :
  (forall b, last = Some b -> check_bp g b = true) ->
  wp (file_direct g f n i last)
     (fun fl _ => forall bp, fl = Next (Some bp) -> check_bp g bp = true)
     (fun _ _ => True) s.
Proof.
  revert i last s. induction n as [|n IH]; intros i last s Hlast; cbn [file_direct].
  - wp_step. intros bp [= ->]. apply Hlast. reflexivity.
  - wp_step; [wp_step; discriminate|].
    destruct (check_bp g (addr f i)) eqn:Hc; cbn [negb].
    + wp_step. wp_step; [|exact Logic.I].
      wp_step; [repeat wp_step; exact Logic.I|].
      apply IH. intros b [= <-]. exact Hc.
    + repeat wp_step. exact Logic.I.
Qed.

(** ** The layout calculation *)

Lemma floor_plus_one (a b : Z) :
  0 < b -> a / b + 1 = ceil_div a b + (if a mod b =? 0 then 1 else 0).
Proof.
  intros Hb. unfold ceil_div.
  pose proof (Z.div_mod a b ltac:(lia)) as Hdm.
  pose proof (Z.mod_pos_bound a b Hb) as Hr.
  destruct (Z.eqb_spec (a mod b) 0) as [E|E].
  - rewrite (Z.div_unique (a + b - 1) b (a / b) (b - 1)); lia.
  - rewrite (Z.div_unique (a + b - 1) b (a / b + 1) (a mod b - 1)); lia.
Qed.

(** C5, in the form the code satisfies: the layout rounds by adding one
    to the floor of the quotient, not by taking the ceiling: the two agree
    unless the count is a multiple of the divisor, where the layout is one
    block larger.  The metadata count is 2 + log blocks + inode blocks +
    bitmap blocks.  All of it is 32-bit unsigned arithmetic. *)
Theorem layout_floor_plus_one `{FsParams} (s : superblock) :
  0 < IPB -> 0 < BSIZE ->
  let g := layout s in
  iblocks g = wrap32 (sb_ninodes s / IPB + 1)
  /\ bmapblocks g = wrap32 (sb_size s / (BSIZE * 8) + 1)
  /\ iblocks g
     = wrap32 (ceil_div (sb_ninodes s) IPB + (if sb_ninodes s mod IPB =? 0 then 1 else 0))
  /\ bmapblocks g
     = wrap32 (ceil_div (sb_size s) (BSIZE * 8)
               + (if sb_size s mod (BSIZE * 8) =? 0 then 1 else 0))
  /\ nmeta g = wrap32 (2 + sb_nlog s + iblocks g + bmapblocks g).
Proof.
  intros HI HB. cbn.
  rewrite <- !floor_plus_one by lia. repeat split; reflexivity.
Qed.


(** ** The bitmap lookup *)

Lemma wrap32_small (z : Z) : 0 <= z < 2 ^ 32 -> wrap32 z = z.
Proof. intros. unfold wrap32. apply Z.mod_small. assumption. Qed.

Lemma land_shiftr_1 (x k : Z) :
  0 <= k -> Z.land (Z.shiftr x k) 1 = Z.b2z (Z.testbit x k).
Proof.
  intros Hk. change 1 with (Z.ones 1). rewrite Z.land_ones by lia.
  change (2 ^ 1) with 2. rewrite <- Z.bit0_mod, Z.shiftr_spec by lia.
  reflexivity.
Qed.

Lemma read_at_lookup (img buf : list byte) (off len k : Z) :
  read_at img off len = Some buf -> 0 <= off -> 0 <= k < len ->
  buf !! Z.to_nat k = img !! Z.to_nat (off + k).
Proof.
  unfold read_at. intros Hr Ho Hk.
  destruct (off + len <=? Z.of_nat (length img)); [|discriminate].
  injection Hr as <-.
  rewrite lookup_take_lt by lia. rewrite lookup_drop. f_equal. lia.
Qed.

(** C8: for a block number [b], [bmapval b] returns bit [b mod 8] of byte
    [b / 8] of the bitmap region, the region that starts at the block the
    superblock declares.  The block holding that byte has to lie inside
    the image and its byte offset has to fit the 32-bit offset
    [fp_seek_block] computes. *)
Theorem bmapval_reads_bit `{FsParams} (img : list byte) (s : superblock) (b : Z)
    (st : state) :
  let blk := b / 8 / BSIZE in
  0 < BSIZE -> 0 <= b < 2 ^ 32 -> 0 <= sb_bmapstart s ->
  (sb_bmapstart s + blk) * BSIZE < 2 ^ 32 ->
  (sb_bmapstart s + blk + 1) * BSIZE <= Z.of_nat (length img) ->
  exists byte st',
    img !! Z.to_nat (sb_bmapstart s * BSIZE + b / 8) = Some byte
    /\ bmapval img (layout s) b st = Ret (Z.b2z (Z.testbit (byte_val byte) (b mod 8))) st'.
Proof.
  intros blk HB Hb Hs Hoff Hlen.
  remember blk as k eqn:Ek. unfold blk in Ek. clear blk. rename k into blk.
  assert (Hb8 : 0 <= b / 8) by (apply Z.div_pos; lia).
  assert (Hblk : 0 <= blk) by (rewrite Ek; apply Z.div_pos; lia).
  assert (HB0 : BSIZE <> 0) by lia.
  pose proof (Z.div_mod (b / 8) BSIZE HB0) as Hdm.
  pose proof (Z.mod_pos_bound (b / 8) BSIZE HB) as Hr.
  pose proof (Z.div_mod b 8 ltac:(discriminate)) as Hdm8.
  pose proof (Z.mod_pos_bound b 8 ltac:(reflexivity)) as Hr8.
  rewrite <- Ek in Hdm.
  assert (Hnum : wrap32 (blk + sb_bmapstart s) = sb_bmapstart s + blk)
    by (rewrite wrap32_small; nia).
  assert (Hmul : wrap32 (BSIZE * 8 * blk) = BSIZE * 8 * blk)
    by (rewrite wrap32_small; nia).
  assert (Hbit : wrap32 (b - BSIZE * 8 * blk) = 8 * ((b / 8) mod BSIZE) + b mod 8)
    by (rewrite wrap32_small; nia).
  assert (Hbit8 : (8 * ((b / 8) mod BSIZE) + b mod 8) / 8 = (b / 8) mod BSIZE).
  { symmetry. apply (Z.div_unique _ 8 _ (b mod 8)); lia. }
  assert (Hbitm : (8 * ((b / 8) mod BSIZE) + b mod 8) mod 8 = b mod 8).
  { symmetry. apply (Z.mod_unique _ 8 ((b / 8) mod BSIZE) (b mod 8)); lia. }
  unfold bmapval, rblock, fp_seek_block, bind, emit, ret. cbn [layout bmapstart].
  rewrite <- Ek, Hnum, Hmul, Hbit, Hbit8, Hbitm.
  rewrite (wrap32_small ((sb_bmapstart s + blk) * BSIZE)) by nia.
  destruct (read_at img ((sb_bmapstart s + blk) * BSIZE) BSIZE) as [buf|] eqn:Hread.
  2:{ unfold read_at in Hread.
      destruct (Z.leb_spec ((sb_bmapstart s + blk) * BSIZE + BSIZE) (Z.of_nat (length img)));
        [discriminate | lia]. }
  rewrite (read_at_lookup _ _ _ _ _ Hread) by lia.
  replace ((sb_bmapstart s + blk) * BSIZE + (b / 8) mod BSIZE)
    with (sb_bmapstart s * BSIZE + b / 8) by lia.
  destruct (img !! Z.to_nat (sb_bmapstart s * BSIZE + b / 8)) as [byte|] eqn:Hbyte.
  - exists byte. eexists. split; [reflexivity|].
    rewrite land_shiftr_1 by lia. reflexivity.
  - apply lookup_ge_None in Hbyte. lia.
Qed.

(** ** The address scan of the final inode pass *)

Section AddrScan.
Context `{FsParams} (img : list byte) (g : globals).

Lemma addr_scan_calls (inode : dinode) (k n i : nat) (s : state) :
  (i + n = NDIRECT)%nat -> (i <= k < NDIRECT)%nat -> addr inode k = 0 ->
  exists m, (i + m <= k)%nat
    /\ calls f_bmapval (trace (final (addr_scan img g inode n i s)))
       = calls f_bmapval (trace s) ++ map (addr inode) (seq i m).
Proof.
  revert i s. induction n as [|n IH]; intros i s Hn Hk Hz; [lia|].
  apply (wp_final (addr_scan img g inode (S n) i)
           (fun s' => exists m, (i + m <= k)%nat
              /\ calls f_bmapval (trace s')
                 = calls f_bmapval (trace s) ++ map (addr inode) (seq i m))).
  cbn [addr_scan].
  destruct (Z.eqb_spec (addr inode i) 0) as [E|E].
  { apply wp_ret. exists 0%nat. cbn. rewrite app_nil_r. split; [lia | reflexivity]. }
  assert (i <> k) by congruence.
  assert (Hstop : forall l, calls f_bmapval l = [] ->
    exists m, (i + m <= k)%nat
      /\ calls f_bmapval ((trace s ++ [Call f_bmapval (addr inode i)]) ++ l)
         = calls f_bmapval (trace s) ++ map (addr inode) (seq i m)).
  { intros l Hl. exists 1%nat. split; [lia|]. rewrite !calls_app, Hl, app_nil_r. reflexivity. }
  apply wp_bind, wp_bmapval; cbn [log trace].
  2: { rewrite <- app_assoc. apply Hstop. reflexivity. }
  2: { apply Hstop. reflexivity. }
  intros v. destruct (v =? 0).
  { apply wp_bind, wp_printf, wp_exit. cbn [log trace]. rewrite <- app_assoc. apply Hstop.
    reflexivity. }
  destruct (Nat.eqb_spec (S i) NDIRECT) as [En|En]; [lia|].
  apply wp_final.
  destruct (IH (S i) (log (Call f_rblock (wrap32 (addr inode i / 8 / BSIZE + bmapstart g)))
                        (log (Call f_bmapval (addr inode i)) s))
              ltac:(lia) ltac:(lia) Hz) as (m & Hm & Hcalls).
  exists (S m). split; [lia|].
  rewrite Hcalls. cbn [log trace]. rewrite !calls_app, <- !app_assoc. reflexivity.
Qed.

End AddrScan.

(** C9: when some direct address of the inode is zero, say the one in
    slot [k], the scan passes to [bmapval] only the addresses of slots
    [0 .. m) for some [m <= k], in this order: the indirect address (slot
    NDIRECT) is not looked up. *)
Theorem indirect_bitmap_needs_full_direct `{FsParams} (img : list byte) (g : globals)
    (inode : dinode) (k : nat) (s : state) :
  (k < NDIRECT)%nat -> addr inode k = 0 ->
  exists m, (m <= k)%nat
    /\ calls f_bmapval (trace (final (addr_scan img g inode NDIRECT 0 s)))
       = calls f_bmapval (trace s) ++ map (addr inode) (seq 0 m).
Proof.
  intros Hk Hz.
  destruct (addr_scan_calls img g inode k NDIRECT 0 s) as (m & Hm & Hc); [lia | lia | exact Hz |].
  exists m. split; [lia | exact Hc].
Qed.

(** ** Runs on concrete images *)

Section Xv6Runs.
#[local] Existing Instance Xv6.params.

(** The minimal consistent image is accepted without any output. *)
Example root_only_accepted :
  status (Xv6.run Xv6.img_root_only) = Some 0
  /\ printed (trace (final (Xv6.run Xv6.img_root_only))) = [].
Proof. vm_compute. split; reflexivity. Qed.

(** C1: every reported violation should end the process at once with a
    non-zero status.  On [img_two_reports] the walker reports the re-used
    indirect block of file [a] and the inode scan reports the unmarked
    indirect block of file [b]; the run goes on after each report and
    [main] returns 0. *)
Theorem report_without_exit :
  status (Xv6.run Xv6.img_two_reports) = Some 0
  /\ printed (trace (final (Xv6.run Xv6.img_two_reports)))
     = ["ERROR: direct address used more than once."%string;
        "ERROR: address used by inode but marked free in bitmap."%string].
Proof. vm_compute. split; reflexivity. Qed.

(** C2: the indirect pointer itself should be range-checked.  Inode 2 of
    [img_bad_indirect] has the indirect address 60, which [check_bp]
    rejects; the walker tests the last direct address instead, counts
    block 60 and the whole image is accepted silently. *)
Theorem indirect_pointer_not_validated :
  let g := layout Xv6.sb64 in
  let f := Xv6.dec_dinode Xv6.file_bad_indirect 0 in
  let o := Xv6.run Xv6.img_bad_indirect in
  d_type f = T_FILE
  /\ addr f NDIRECT = 60
  /\ check_bp g 60 = false
  /\ status o = Some 0
  /\ printed (trace (final o)) = []
  /\ block_refs (final o) !! Z.to_nat (60 - nmeta g) = Some 1.
Proof. vm_compute. repeat split; reflexivity. Qed.

(** C3: an invalid invocation should end with status 1.  With a wrong
    argument count [main] returns 1; when the image cannot be opened the
    diagnostic is printed and the run goes on to seek on the null stream,
    so no exit status 1 is produced. *)
Theorem unopenable_image_not_exit_1 `{FsParams} (fuel : nat) (prog path : string)
    (fopen : string -> option (list byte)) :
  status (xcheck fuel [prog] fopen) = Some 1
  /\ xcheck fuel [prog; path] (fun _ => None)
     = Fault (mk_state [] [] [Printf ("invalid image file." ++ LF) []])
  /\ status (xcheck fuel [prog; path] (fun _ => None)) = None.
Proof. repeat split; reflexivity. Qed.

(** C4: a data block listed twice should be reported.  The root directory
    of [img_dir_block_twice] lists block 6 twice; the directory walker
    counts it twice without looking at the count, and the image is
    accepted silently. *)
Theorem directory_block_reuse_accepted :
  let g := layout Xv6.sb64 in
  let o := Xv6.run Xv6.img_dir_block_twice in
  status o = Some 0
  /\ printed (trace (final o)) = []
  /\ block_refs (final o) !! Z.to_nat (6 - nmeta g) = Some 2.
Proof. vm_compute. repeat split; reflexivity. Qed.

(** C5: with xv6's default geometry (200 inodes, 8 per block) the layout
    has 26 inode blocks, the ceiling of the quotient is 25. *)
Lemma layout_not_ceiling :
  iblocks (layout Xv6.sb_default) <> ceil_div (sb_ninodes Xv6.sb_default) IPB.
Proof. vm_compute. discriminate. Qed.

Lemma layout_floor_plus_one_witness :
  0 < IPB /\ 0 < BSIZE
  /\ (let g := layout Xv6.sb_default in
      iblocks g = wrap32 (200 / 8 + 1)
      /\ bmapblocks g = wrap32 (1000 / (512 * 8) + 1)
      /\ iblocks g = wrap32 (ceil_div 200 8 + 1)
      /\ bmapblocks g = wrap32 (ceil_div 1000 (512 * 8) + 0)
      /\ nmeta g = wrap32 (2 + 30 + iblocks g + bmapblocks g)).
Proof.
  split; [reflexivity |]. split; [reflexivity |].
  exact (layout_floor_plus_one Xv6.sb_default eq_refl eq_refl).
Defined.

(** C6: the superblock of [img_no_inodes] declares zero inodes; the
    checker looks up inode 1 all the same, walks the root directory and
    accepts the image without a word. *)
Lemma zero_inodes_accepted :
  sb_ninodes (Xv6.dec_superblock (Xv6.enc_superblock Xv6.sb_no_inodes)) = 0
  /\ status (Xv6.run Xv6.img_no_inodes) = Some 0
  /\ printed (trace (final (Xv6.run Xv6.img_no_inodes))) = []
  /\ take 2 (trace (final (Xv6.run Xv6.img_no_inodes))) = [Call f_rinode 1; Call f_rblock 2].
Proof. vm_compute. repeat split; reflexivity. Qed.

Lemma no_layout_validation_witness :
  (fun _ : string => Some Xv6.img_no_inodes) "fs.img"%string = Some Xv6.img_no_inodes
  /\ read_at Xv6.img_no_inodes BSIZE SBSIZE = Some (Xv6.enc_superblock Xv6.sb_no_inodes)
  /\ exists tr, trace (final (xcheck 100 ["xcheck"; "fs.img"]%string
                                (fun _ => Some Xv6.img_no_inodes)))
                = Call f_rinode 1 :: tr.
Proof.
  split; [reflexivity |]. split; [vm_compute; reflexivity |].
  apply (no_layout_validation 100 "xcheck" "fs.img" (fun _ => Some Xv6.img_no_inodes)
           Xv6.img_no_inodes (Xv6.enc_superblock Xv6.sb_no_inodes)).
  - reflexivity.
  - vm_compute. reflexivity.
Defined.

(** C7: the root directory of [img_root_loop] has an entry naming the
    root; [recurse_dir] is entered for inode 1 twice before the duplicate
    is reported. *)
Lemma root_entered_twice :
  calls f_recurse_dir (trace (final (Xv6.run Xv6.img_root_loop))) = [1; 1]
  /\ status (Xv6.run Xv6.img_root_loop) = Some 1
  /\ printed (trace (final (Xv6.run Xv6.img_root_loop))) = [dup_msg].
Proof. vm_compute. repeat split; reflexivity. Qed.

Lemma traversal_bounded_witness :
  inode_refs Xv6.small_state = replicate (length (inode_refs Xv6.small_state)) 0
  /\ calls f_recurse_dir (trace Xv6.small_state) = []
  /\ (length (inode_refs Xv6.small_state) < 9)%nat
  /\ (let o := recurse_dir Xv6.img_root_loop (layout Xv6.sb64) 9 Xv6.root_dinode 1
                 Xv6.small_state in
      (forall s', o <> Timeout s')
      /\ (forall fuel', (9 <= fuel')%nat ->
            recurse_dir Xv6.img_root_loop (layout Xv6.sb64) fuel' Xv6.root_dinode 1
              Xv6.small_state = o)
      /\ (forall x, (enters x (trace (final o)) <= if (x =? 1)%Z then 2 else 1)%nat)
      /\ (forall x v, 0 <= x -> is_dir Xv6.img_root_loop (layout Xv6.sb64) x = true ->
            inode_refs (final o) !! Z.to_nat x = Some v ->
            v <= 1
            \/ (o = Exit 1 (final o)
                /\ last (trace (final o)) = Some (Printf dup_msg [])))).
Proof.
  split; [reflexivity |]. split; [reflexivity |]. split; [vm_compute; lia |].
  apply (traversal_bounded Xv6.img_root_loop (layout Xv6.sb64) 9 Xv6.root_dinode 1
           Xv6.small_state).
  - reflexivity.
  - reflexivity.
  - vm_compute. lia.
Defined.

Lemma bmapval_reads_bit_witness :
  0 < BSIZE /\ 0 <= 5 < 2 ^ 32 /\ 0 <= sb_bmapstart Xv6.sb64
  /\ (sb_bmapstart Xv6.sb64 + 5 / 8 / BSIZE) * BSIZE < 2 ^ 32
  /\ (sb_bmapstart Xv6.sb64 + 5 / 8 / BSIZE + 1) * BSIZE
     <= Z.of_nat (length Xv6.img_root_only)
  /\ exists byte st',
       Xv6.img_root_only !! Z.to_nat (sb_bmapstart Xv6.sb64 * BSIZE + 5 / 8) = Some byte
       /\ bmapval Xv6.img_root_only (layout Xv6.sb64) 5 init_state
          = Ret (Z.b2z (Z.testbit (byte_val byte) (5 mod 8))) st'.
Proof.
  split; [reflexivity |]. split; [split; [discriminate | reflexivity] |].
  split; [discriminate |]. split; [reflexivity |]. split; [vm_compute; discriminate |].
  apply (bmapval_reads_bit Xv6.img_root_only Xv6.sb64 5 init_state).
  - reflexivity.
  - split; [discriminate | reflexivity].
  - discriminate.
  - reflexivity.
  - vm_compute. discriminate.
Defined.

Lemma indirect_bitmap_needs_full_direct_witness :
  (1 < NDIRECT)%nat /\ addr Xv6.root_dinode 1 = 0
  /\ exists m, (m <= 1)%nat
       /\ calls f_bmapval
            (trace (final (addr_scan Xv6.img_root_only (layout Xv6.sb64) Xv6.root_dinode
                             NDIRECT 0 init_state)))
          = calls f_bmapval (trace init_state) ++ map (addr Xv6.root_dinode) (seq 0 m).
Proof.
  split; [vm_compute; lia |]. split; [reflexivity |].
  apply (indirect_bitmap_needs_full_direct Xv6.img_root_only (layout Xv6.sb64)
           Xv6.root_dinode 1 init_state).
  - vm_compute. lia.
  - reflexivity.
Defined.

(** The image with a subdirectory is consistent. *)
Example subdir_accepted :
  status (Xv6.run Xv6.img_subdir) = Some 0
  /\ printed (trace (final (Xv6.run Xv6.img_subdir))) = [].
Proof. vm_compute. split; reflexivity. Qed.

(** On [img_subdir] the walk counts the entry [a] of the root and the
    entry [b] of [a], and neither [.] nor [..] of the two directories. *)
Example subdir_counted :
  counted Xv6.img_subdir (layout Xv6.sb64) 9 Xv6.root_dinode = [2; 3]
  /\ take 4 (inode_refs (final (recurse_dir Xv6.img_subdir (layout Xv6.sb64) 9
                                  Xv6.root_dinode 1 Xv6.small_state)))
     = [0; 0; 1; 1].
Proof. vm_compute. split; reflexivity. Qed.

Lemma dot_entries_not_counted_witness :
  let g := layout Xv6.sb64 in
  let o := recurse_dir Xv6.img_subdir g 9 Xv6.root_dinode 1 Xv6.small_state in
  o = Ret tt (final o)
  /\ inode_refs (final o)
     = fold_left bump (counted Xv6.img_subdir g 9 Xv6.root_dinode)
         (inode_refs Xv6.small_state)
  /\ (forall i buf, counted_in_block i buf
                    = live_from buf (DPB - (if Nat.eqb i 0 then 2 else 0))
                        (if Nat.eqb i 0 then 2 else 0)%nat)
  /\ (forall x, wrap32 (ref_of (inode_refs (final o)) x)
                = wrap32 (ref_of (inode_refs Xv6.small_state) x
                          + Z.of_nat (count_occ Z.eq_dec
                                        (counted Xv6.img_subdir g 9 Xv6.root_dinode) x))).
Proof.
  intros g o. split; [vm_compute; reflexivity |].
  apply (dot_entries_not_counted Xv6.img_subdir g 9 Xv6.root_dinode 1 Xv6.small_state).
  vm_compute. reflexivity.
Defined.

End Xv6Runs.

(** ** Reading blocks and bitmap bits *)

Lemma read_at_length (img buf : list byte) (off len : Z) :
  0 <= off -> 0 <= len -> read_at img off len = Some buf -> length buf = Z.to_nat len.
Proof.
  unfold read_at. intros Ho Hl Hr.
  destruct (Z.leb_spec (off + len) (Z.of_nat (length img))); [|discriminate].
  injection Hr as <-. rewrite length_take, length_drop. lia.
Qed.

Lemma wrap32_range (z : Z) : 0 <= wrap32 z < 2 ^ 32.
Proof. unfold wrap32. apply Z.mod_pos_bound. reflexivity. Qed.

(** [rblock] hands out exactly the [BSIZE] bytes of the image at the byte
    offset [num * BSIZE], taken modulo 2^32, when the image holds them all;
    otherwise it reports [fread] and exits with status 1.  It touches
    neither reference table. *)
Theorem rblock_reads_block `{FsParams} (img : list byte) (num : Z) (s : state) :
  0 <= BSIZE ->
  let off := wrap32 (num * BSIZE) in
  (exists buf,
      rblock img num s = Ret buf (log (Call f_rblock num) s)
      /\ off + BSIZE <= Z.of_nat (length img)
      /\ length buf = Z.to_nat BSIZE
      /\ forall k, 0 <= k < BSIZE -> buf !! Z.to_nat k = img !! Z.to_nat (off + k))
  \/ (rblock img num s = Exit 1 (log (Perror "fread") (log (Call f_rblock num) s))
      /\ Z.of_nat (length img) < off + BSIZE).
Proof.
  intros HB off. pose proof (wrap32_range (num * BSIZE)) as Hoff. fold off in Hoff.
  unfold rblock, fp_seek_block, bind, emit, perror, emit, exit, ret. fold off.
  destruct (read_at img off BSIZE) as [buf|] eqn:Hr.
  - left. exists buf. split; [reflexivity|]. split; [|split].
    + unfold read_at in Hr. destruct (Z.leb_spec (off + BSIZE) (Z.of_nat (length img)));
        [assumption | discriminate].
    + eapply read_at_length; [| |exact Hr]; lia.
    + intros k Hk. eapply read_at_lookup; [exact Hr | lia | exact Hk].
  - right. split; [reflexivity|].
    unfold read_at in Hr. destruct (Z.leb_spec (off + BSIZE) (Z.of_nat (length img)));
      [discriminate | assumption].
Qed.

Lemma land_1_cases (x : Z) : Z.land x 1 = 0 \/ Z.land x 1 = 1.
Proof.
  assert (E : Z.land x 1 = x mod 2) by (apply (Z.land_ones x 1); lia).
  rewrite E. pose proof (Z.mod_pos_bound x 2 ltac:(reflexivity)). lia.
Qed.

(** The byte index [bit / 8] of [bmapval] lies inside the block. *)
Lemma bmapval_index_in_block (B num : Z) :
  0 < B -> 0 <= num < 2 ^ 32 ->
  0 <= wrap32 (num - wrap32 (B * 8 * (num / 8 / B))) / 8 < B.
Proof.
  intros HB Hn.
  assert (HB0 : B <> 0) by lia.
  assert (Hn8 : 0 <= num / 8) by (apply Z.div_pos; lia).
  assert (Hblk : 0 <= num / 8 / B) by (apply Z.div_pos; lia).
  pose proof (Z.div_mod (num / 8) B HB0) as Hdm.
  pose proof (Z.mod_pos_bound (num / 8) B HB) as Hr.
  pose proof (Z.div_mod num 8 ltac:(discriminate)) as Hdm8.
  pose proof (Z.mod_pos_bound num 8 ltac:(reflexivity)) as Hr8.
  assert (Hmul : wrap32 (B * 8 * (num / 8 / B)) = B * 8 * (num / 8 / B))
    by (apply wrap32_small; nia).
  assert (Hbit : wrap32 (num - B * 8 * (num / 8 / B)) = 8 * ((num / 8) mod B) + num mod 8)
    by (rewrite wrap32_small; nia).
  rewrite Hmul, Hbit.
  replace ((8 * ((num / 8) mod B) + num mod 8) / 8) with ((num / 8) mod B); [exact Hr|].
  apply (Z.div_unique _ 8 _ (num mod 8)); lia.
Qed.

(** [bmapval] never reads outside the block it fetched: for a 32-bit block
    number it returns 0 or 1, or exits with status 1 because the bitmap
    block cannot be read.  It touches neither reference table. *)
Theorem bmapval_bit_or_exit `{FsParams} (img : list byte) (g : globals) (num : Z)
    (s : state) :
  0 < BSIZE -> 0 <= num < 2 ^ 32 ->
  (exists v s', bmapval img g num s = Ret v s'
                /\ (v = 0 \/ v = 1) /\ bit_at img g num = Some v /\ tables s' = tables s)
  \/ (exists s', bmapval img g num s = Exit 1 s'
                 /\ bit_at img g num = None /\ tables s' = tables s).
Proof.
  intros HB Hn. pose proof (bmapval_index_in_block BSIZE num HB Hn) as Hidx.
  unfold bmapval, bit_at, rblock, bind, emit, perror, emit, exit, ret, fault.
  cbv zeta.
  destruct (read_at img _ BSIZE) as [buf|] eqn:Hr.
  - pose proof (read_at_length _ _ _ _ (proj1 (wrap32_range _)) (Z.lt_le_incl _ _ HB) Hr)
      as Hlen.
    assert (Hlt : (Z.to_nat (wrap32 (num - wrap32 (BSIZE * 8 * (num / 8 / BSIZE))) / 8)
                   < length buf)%nat) by lia.
    destruct (lookup_lt_is_Some_2 buf _ Hlt) as [byte Hbyte].
    rewrite Hbyte. left. eexists. eexists. split; [reflexivity|].
    split; [apply land_1_cases|]. split; reflexivity.
  - right. eexists. split; [reflexivity|]. split; reflexivity.
Qed.

(** ** The file block walker *)

Lemma wp_const {A} (m : M A) (P : Prop) (s : state) :
  P -> wp m (fun _ _ => P) (fun _ _ => True) s.
Proof. intros HP. unfold wp. destruct (m s); auto. Qed.

Lemma wp_incr_block_refs_in (i : Z) (Q : Z -> state -> Prop) X s :
  0 <= i -> (Z.to_nat i < length (block_refs s))%nat ->
  (forall v, block_refs s !! Z.to_nat i = Some v ->
     Q (wrap32 (v + 1))
       (mk_state (inode_refs s) (<[Z.to_nat i := wrap32 (v + 1)]> (block_refs s)) (trace s))) ->
  wp (incr_block_refs i) Q X s.
Proof.
  intros Hi Hlt HQ. unfold wp, incr_block_refs.
  destruct (Z.ltb_spec i 0); [lia|].
  destruct (lookup_lt_is_Some_2 _ _ Hlt) as [v Hv]. rewrite Hv. apply HQ, Hv.
Qed.

Lemma calls_quiet (e : event) : quiet_event e -> calls f_recurse_dir [e] = [].
Proof.
  intros He. destruct e as [| |f a]; try reflexivity.
  destruct f; try reflexivity. exfalso. exact (He a eq_refl).
Qed.

(** [process_file] leaves the inode reference table alone, never enters
    [recurse_dir] and needs no fuel. *)
Theorem process_file_keeps_inode_refs `{FsParams} (img : list byte) (g : globals)
    (f : dinode) (s : state) :
  let o := process_file img g f s in
  inode_refs (final o) = inode_refs s
  /\ calls f_recurse_dir (trace (final o)) = calls f_recurse_dir (trace s)
  /\ length (block_refs (final o)) = length (block_refs s)
  /\ forall s', o <> Timeout s'.
Proof.
  intros o.
  set (I := fun st => inode_refs st = inode_refs s
                      /\ calls f_recurse_dir (trace st) = calls f_recurse_dir (trace s)).
  assert (HI : frame_stable I).
  { split.
    - intros e st He [H1 H2]. split; [exact H1|].
      cbn [log trace]. rewrite calls_app, (calls_quiet e He), app_nil_r. exact H2.
    - intros st br Hst. exact Hst. }
  set (J := fun st => length (block_refs st) = length (block_refs s)).
  pose proof (frame_process_file img g I HI f s (conj eq_refl eq_refl)) as Hw.
  assert (Hlen : wp (process_file img g f) (fun _ => J) (fun _ => J) s).
  { clear Hw. unfold process_file.
    assert (Hd : forall n i last st, J st ->
              wp (file_direct g f n i last) (fun _ => J) (fun _ => J) st).
    { induction n as [|n IH]; intros i last st Hst; cbn [file_direct]; repeat wp_step;
        try apply IH; unfold J in *; cbn [log block_refs]; rewrite ?length_insert;
        exact Hst. }
    assert (Hi : forall buf n i st, J st ->
              wp (file_indirect g buf n i) (fun _ => J) (fun _ => J) st).
    { induction n as [|n IH]; intros i st Hst; cbn [file_indirect]; repeat wp_step;
        try apply IH; unfold J in *; cbn [log block_refs]; rewrite ?length_insert;
        exact Hst. }
    wp_step; [repeat wp_step; reflexivity|].
    wp_step. eapply wp_mono; [apply Hd; reflexivity | | auto].
    intros fl st Hst. cbv beta. repeat wp_step; try apply Hi; unfold J in *;
      cbn [log block_refs]; rewrite ?length_insert; exact Hst. }
  unfold wp in Hw, Hlen. fold o in Hw, Hlen.
  destruct o as [[] s'|c s'|s'|s']; cbn [final].
  - destruct Hw as [H1 H2]. repeat split; try assumption. discriminate.
  - destruct Hw as [_ [H1 H2]]. repeat split; try assumption. discriminate.
  - destruct Hw as [_ [H1 H2]]. repeat split; try assumption. discriminate.
  - destruct Hw as [Hk _]. contradiction.
Qed.

Section DirectAddresses.
Context `{FsParams} (g : globals) (f : dinode).

(** The block of address [b] has been counted. *)
#[local] Abbreviation counted_block s b :=
  (exists v, block_refs s !! Z.to_nat (wrap32 (b - nmeta g)) = Some v /\ 1 <= v).

Lemma file_direct_sound (n i : nat) (last : option Z) (s : state) :
  counters_in_range (block_refs s) ->
  (forall k, (k < i)%nat -> counted_block s (addr f k)) ->
  wp (file_direct g f n i last)
     (fun _ _ => forall j, (i <= j < i + n)%nat ->
        (forall k, (i <= k <= j)%nat -> addr f k <> 0) ->
        check_bp g (addr f j) = true /\ forall k, (k < j)%nat -> addr f k <> addr f j)
     (fun _ _ => True) s.
Proof.
  revert i last s. induction n as [|n IH]; intros i last s Hr Hm; cbn [file_direct].
  - wp_step. intros j Hj. lia.
  - destruct (Z.eqb_spec (addr f i) 0) as [E0|E0].
    { wp_step. intros j Hj Hnz. exfalso. apply (Hnz i); [lia | exact E0]. }
    destruct (check_bp g (addr f i)) eqn:Hc; cbn [negb]; [|repeat wp_step; exact Logic.I].
    wp_step. apply wp_incr_block_refs; [|exact Logic.I].
    intros v Hi Hv.
    assert (Hv_range : 0 <= v < 2 ^ 32 - 1).
    { unfold counters_in_range in Hr. rewrite Forall_lookup in Hr. exact (Hr _ _ Hv). }
    rewrite (wrap32_small (v + 1)) by lia.
    destruct (Z.gtb_spec (v + 1) 1) as [Hgt|Hle]; [repeat wp_step; exact Logic.I|].
    assert (v = 0) by lia. subst v.
    assert (Hnew : forall k, (k < i)%nat -> addr f k <> addr f i).
    { intros k Hk E. destruct (Hm k Hk) as (w & Hw & Hw1). rewrite E, Hv in Hw.
      injection Hw as <-. lia. }
    eapply wp_mono; [apply (IH (S i)) | | auto].
    + unfold counters_in_range in *. cbn [block_refs].
      apply Forall_insert; [exact Hr | lia].
    + intros k Hk. cbn [block_refs].
      destruct (Nat.eq_dec k i) as [->|Hne].
      * exists 1. split; [|lia]. apply list_lookup_insert_eq. eapply lookup_lt_Some, Hv.
      * destruct (Hm k ltac:(lia)) as (w & Hw & Hw1).
        exists w. split; [|exact Hw1].
        rewrite list_lookup_insert_ne; [exact Hw|].
        intros E. rewrite <- E, Hv in Hw. injection Hw as <-. lia.
    + intros fl s' Hrest j Hj Hnz. cbv beta in Hrest.
      destruct (Nat.eq_dec j i) as [->|Hne].
      * split; [exact Hc | exact Hnew].
      * destruct (Hrest j ltac:(lia)) as [Hcj Hdj].
        { intros k Hk. apply Hnz. lia. }
        split; [exact Hcj | exact Hdj].
Qed.

End DirectAddresses.

(** When [process_file] returns, the inode is a file or a device and its
    direct addresses up to the first zero one all lie in the range
    [check_bp] accepts and are pairwise different: a repeated direct
    address never passes.  The block counters must be such that one more
    increment does not wrap. *)
Theorem process_file_direct_sound `{FsParams} (img : list byte) (g : globals)
    (f : dinode) (s s' : state) :
  counters_in_range (block_refs s) ->
  process_file img g f s = Ret tt s' ->
  (d_type f = T_FILE \/ d_type f = T_DEV)
  /\ forall j, (j < NDIRECT)%nat -> in_use_slot f j ->
       check_bp g (addr f j) = true /\ forall k, (k < j)%nat -> addr f k <> addr f j.
Proof.
  intros Hr Hrun.
  assert (Hw : wp (process_file img g f)
                 (fun _ _ =>
                    (d_type f = T_FILE \/ d_type f = T_DEV)
                    /\ forall j, (j < NDIRECT)%nat -> in_use_slot f j ->
                         check_bp g (addr f j) = true
                         /\ forall k, (k < j)%nat -> addr f k <> addr f j)
                 (fun _ _ => True) s).
  { unfold process_file.
    destruct (Z.eqb_spec (d_type f) T_FILE) as [Ef|Ef], (Z.eqb_spec (d_type f) T_DEV) as [Ed|Ed];
      cbn [negb andb]; try (repeat wp_step; exact Logic.I).
    all: wp_step; eapply wp_mono;
      [apply (file_direct_sound g f NDIRECT 0 None s Hr); intros k Hk; lia | | auto].
    all: intros fl s1 Hd; cbv beta in Hd; apply wp_const; split; [tauto|].
    all: intros j Hj Hu; apply Hd; [lia|]; intros k Hk; apply Hu; lia. }
  unfold wp in Hw. rewrite Hrun in Hw. exact Hw.
Qed.

(** [process_file] stays inside [block_refs] when the table has an entry
    for every block of the range [check_bp] accepts, the inode has a
    direct address and its indirect address is zero or in that range: the
    walker then returns or exits with status 1.  (An indirect address
    outside the range is counted unchecked and may index outside the
    table.) *)
Theorem process_file_stays_in_table `{FsParams} (img : list byte) (g : globals)
    (f : dinode) (s : state) :
  (0 < NDIRECT)%nat ->
  sb_nblocks (sb g) - nmeta g <= Z.of_nat (length (block_refs s)) ->
  addr f NDIRECT = 0 \/ check_bp g (addr f NDIRECT) = true ->
  (exists s', process_file img g f s = Ret tt s')
  \/ (exists s', process_file img g f s = Exit 1 s').
Proof.
  intros Hnd Hcover Hind.
  set (J := fun st => sb_nblocks (sb g) - nmeta g <= Z.of_nat (length (block_refs st))).
  assert (Hidx : forall bp st, J st -> check_bp g bp = true ->
            0 <= wrap32 (bp - nmeta g)
            /\ (Z.to_nat (wrap32 (bp - nmeta g)) < length (block_refs st))%nat).
  { intros bp st Hst Hc. unfold check_bp in Hc. apply andb_true_iff in Hc as [H1 H2].
    apply Z.leb_le in H1. apply Z.ltb_lt in H2.
    pose proof (wrap32_range (bp - nmeta g)) as Hw.
    assert (wrap32 (bp - nmeta g) <= bp - nmeta g)
      by (unfold wrap32; apply Z.mod_le; lia).
    unfold J in Hst. lia. }
  assert (HJ : forall st i v, J st ->
            J (mk_state (inode_refs st) (<[i := v]> (block_refs st)) (trace st))).
  { intros st i v Hst. unfold J in *. cbn [block_refs]. rewrite length_insert. exact Hst. }
  assert (Hd : forall n i last st, J st -> (n = 0%nat -> last <> None) ->
            wp (file_direct g f n i last)
               (fun fl st' => J st' /\ fl <> Next None) (fun k _ => k = SExit 1) st).
  { induction n as [|n IH]; intros i last st Hst Hlast; cbn [file_direct].
    - wp_step. split; [exact Hst|]. intros [= E]. exact (Hlast eq_refl E).
    - wp_step; [wp_step; split; [exact Hst | discriminate]|].
      destruct (check_bp g (addr f i)) eqn:Hc; cbn [negb]; [|repeat wp_step; reflexivity].
      destruct (Hidx _ st Hst Hc) as [Hi0 Hi1].
      wp_step. apply wp_incr_block_refs_in; [exact Hi0 | exact Hi1|].
      intros v Hv. wp_step; [repeat wp_step; reflexivity|].
      apply IH; [apply HJ, Hst | discriminate]. }
  assert (Hi : forall buf n i st, J st ->
            wp (file_indirect g buf n i) (fun _ _ => True) (fun k _ => k = SExit 1) st).
  { induction n as [|n IH]; intros i st Hst; cbn [file_indirect].
    - wp_step. exact Logic.I.
    - wp_step; [wp_step; exact Logic.I|].
      destruct (check_bp g (decode_uint buf (Z.of_nat i))) eqn:Hc; cbn [negb];
        [|repeat wp_step; reflexivity].
      destruct (Hidx _ st Hst Hc) as [Hi0 Hi1].
      wp_step. apply wp_incr_block_refs_in; [exact Hi0 | exact Hi1|].
      intros v Hv. wp_step; [repeat wp_step; reflexivity|].
      apply IH, HJ, Hst. }
  assert (Hw : wp (process_file img g f) (fun _ _ => True) (fun k _ => k = SExit 1) s).
  { unfold process_file. wp_step; [repeat wp_step; reflexivity|].
    wp_step. eapply wp_mono; [apply Hd; [exact Hcover | lia] | | auto].
    intros fl st [Hst Hfl]. cbv beta.
    destruct fl as [[bp|]|]; [|contradiction | wp_step; exact Logic.I].
    cbv zeta. wp_step; [wp_step; exact Logic.I|].
    destruct Hind as [E|Hc]; [rewrite E in *; discriminate|].
    wp_step; [repeat wp_step; reflexivity|].
    destruct (Hidx _ st Hst Hc) as [Hi0 Hi1].
    wp_step. apply wp_incr_block_refs_in; [exact Hi0 | exact Hi1|].
    intros v Hv. wp_step.
    assert (Hrest : forall st0, J st0 ->
              wp (let* buf := rblock img (addr f NDIRECT) in file_indirect g buf NINDIRECT 0)
                 (fun _ _ => True) (fun k _ => k = SExit 1) st0).
    { intros st0 Hst0. wp_step. apply wp_rblock; [|reflexivity].
      intros buf Hb. apply Hi. exact Hst0. }
    wp_step; [wp_step|wp_step]; apply Hrest; apply HJ, Hst. }
  unfold wp in Hw. destruct (process_file img g f s) as [[] s'|c s'|s'|s'].
  - left. eexists. reflexivity.
  - right. injection Hw as ->. eexists. reflexivity.
  - discriminate.
  - discriminate.
Qed.

Section CountedBefore.
Context `{FsParams} (g : globals) (f : dinode).

Lemma file_direct_rejects_counted (n i j : nat) (last : option Z) (s : state) :
  counters_in_range (block_refs s) ->
  (i <= j < i + n)%nat ->
  (forall k, (i <= k <= j)%nat -> addr f k <> 0) ->
  (exists v, block_refs s !! Z.to_nat (wrap32 (addr f j - nmeta g)) = Some v /\ 1 <= v) ->
  wp (file_direct g f n i last) (fun _ _ => False) (fun _ _ => True) s.
Proof.
  revert i last s. induction n as [|n IH]; intros i last s Hr Hj Hnz Hc; [lia|].
  cbn [file_direct].
  destruct (Z.eqb_spec (addr f i) 0) as [E0|E0]; [exfalso; apply (Hnz i); [lia | exact E0]|].
  destruct (check_bp g (addr f i)); cbn [negb]; [|repeat wp_step; exact Logic.I].
  wp_step. apply wp_incr_block_refs; [|exact Logic.I].
  intros v Hi Hv.
  assert (Hv_range : 0 <= v < 2 ^ 32 - 1).
  { unfold counters_in_range in Hr. rewrite Forall_lookup in Hr. exact (Hr _ _ Hv). }
  rewrite (wrap32_small (v + 1)) by lia.
  destruct (Z.gtb_spec (v + 1) 1) as [Hgt|Hle]; [repeat wp_step; exact Logic.I|].
  assert (v = 0) by lia. subst v.
  destruct Hc as (w & Hw & Hw1).
  assert (Hidx : Z.to_nat (wrap32 (addr f i - nmeta g))
                 <> Z.to_nat (wrap32 (addr f j - nmeta g))).
  { intros E. rewrite E, Hw in Hv. injection Hv as ->. lia. }
  assert (Hij : i <> j) by (intros ->; contradiction).
  apply (IH (S i)).
  - unfold counters_in_range in *. cbn [block_refs]. apply Forall_insert; [exact Hr | lia].
  - lia.
  - intros k Hk. apply Hnz. lia.
  - exists w. cbn [block_refs]. split; [|exact Hw1].
    rewrite list_lookup_insert_ne; [exact Hw | exact Hidx].
Qed.

End CountedBefore.

(** A block that is already counted is not accepted a second time: when
    some direct address of the inode, before its first zero one, names a
    block whose counter is at least 1, [process_file] does not return (it
    exits, at the latest with the duplicate report for that address). *)
Theorem process_file_rejects_counted_block `{FsParams} (img : list byte) (g : globals)
    (f : dinode) (j : nat) (v : Z) (s : state) :
  counters_in_range (block_refs s) ->
  (j < NDIRECT)%nat ->
  in_use_slot f j ->
  block_refs s !! Z.to_nat (wrap32 (addr f j - nmeta g)) = Some v ->
  1 <= v ->
  forall s', process_file img g f s <> Ret tt s'.
Proof.
  intros Hr Hj Hu Hv Hv1 s' Hrun.
  assert (Hw : wp (process_file img g f) (fun _ _ => False) (fun _ _ => True) s).
  { unfold process_file. wp_step; [repeat wp_step; exact Logic.I|].
    wp_step. eapply wp_mono;
      [apply (file_direct_rejects_counted g f NDIRECT 0 j None s Hr); [lia | |] | | auto].
    - intros k Hk. apply Hu. lia.
    - exists v. split; assumption.
    - intros ? ? []. }
  unfold wp in Hw. rewrite Hrun in Hw. exact Hw.
Qed.

(** ** What the final passes establish *)

Section Scans.
Context `{FsParams} (img : list byte) (g : globals).

Lemma tables_log (e : event) (s : state) : tables (log e s) = tables s.
Proof. reflexivity. Qed.

Lemma wp_bmapval_bit (num : Z) (Q : Z -> state -> Prop) X s :
  (forall v s1, bit_at img g num = Some v -> tables s1 = tables s -> Q v s1) ->
  (forall k s1, tables s1 = tables s -> X k s1) ->
  wp (bmapval img g num) Q X s.
Proof.
  intros HQ HX. unfold bmapval. cbv zeta. wp_step. wp_step. wp_step.
  apply wp_rblock.
  - intros buf Hb. destruct (buf !! _) as [byte|] eqn:E; [apply wp_ret | apply wp_fault].
    + apply HQ; [|reflexivity].
      unfold bit_at, fp_seek_block. cbv zeta. rewrite Hb, E. reflexivity.
    + apply HX. reflexivity.
  - apply HX. reflexivity.
Qed.

Lemma addr_scan_sound (inode : dinode) (n i : nat) (s : state) :
  wp (addr_scan img g inode n i)
     (fun _ s' => tables s' = tables s
        /\ forall k, (i <= k < i + n)%nat -> (k < NDIRECT)%nat ->
             (forall k', (i <= k' <= k)%nat -> addr inode k' <> 0) ->
             marked_in_bitmap img g (addr inode k))
     (fun _ _ => True) s.
Proof.
  revert i s. induction n as [|n IH]; intros i s; cbn [addr_scan].
  - wp_step. split; [reflexivity|]. intros k Hk. lia.
  - destruct (Z.eqb_spec (addr inode i) 0) as [E0|E0].
    { wp_step. split; [reflexivity|]. intros k Hk _ Hnz. exfalso.
      apply (Hnz i); [lia | exact E0]. }
    wp_step. apply wp_bmapval_bit; [|intros; exact Logic.I].
    intros v s1 Hbit Ht1.
    destruct (Z.eqb_spec v 0) as [Ev|Ev]; [repeat wp_step; exact Logic.I|].
    assert (Hrest : forall s2, tables s2 = tables s ->
              wp (addr_scan img g inode n (S i))
                 (fun _ s' => tables s' = tables s
                    /\ forall k, (i <= k < i + S n)%nat -> (k < NDIRECT)%nat ->
                         (forall k', (i <= k' <= k)%nat -> addr inode k' <> 0) ->
                         marked_in_bitmap img g (addr inode k))
                 (fun _ _ => True) s2).
    { intros s2 Ht2. eapply wp_mono; [apply IH | | auto].
      intros ? s' [Ht Hm]. split; [congruence|].
      intros k Hk Hnd Hnz. destruct (Nat.eq_dec k i) as [->|Hne].
      - exists v. split; assumption.
      - apply Hm; [lia | exact Hnd |]. intros k' Hk'. apply Hnz. lia. }
    destruct (Nat.eqb (S i) NDIRECT) eqn:En.
    + destruct (Z.eqb_spec (addr inode NDIRECT) 0) as [Ei|Ei].
      * wp_step. split; [exact Ht1|]. intros k Hk Hnd Hnz.
        apply Nat.eqb_eq in En. assert (k = i) by lia. subst k.
        exists v. split; assumption.
      * wp_step. apply wp_bmapval_bit; [|intros; exact Logic.I].
        intros v' s2 _ Ht2. wp_step.
        destruct (v' =? 0); [wp_step|wp_step]; apply Hrest; rewrite ?tables_log;
          congruence.
    + apply Hrest. exact Ht1.
Qed.

Lemma check_inode_sound (i : Z) (s : state) :
  wp (check_inode img g i)
     (fun _ s' => tables s' = tables s /\ inode_passes img g (inode_refs s) i)
     (fun _ _ => True) s.
Proof.
  unfold check_inode. wp_step. apply wp_rinode; [|exact Logic.I].
  intros buf Hb. set (ip := decode_dinode buf (i mod IPB)).
  assert (Hat : inode_at img g i = Some ip) by (unfold inode_at; rewrite Hb; reflexivity).
  destruct (Z.eqb_spec (d_type ip) 0) as [Et|Et].
  - wp_step. apply wp_load_inode_refs; [|exact Logic.I].
    intros r Hi Hr. cbn [log inode_refs] in Hr.
    destruct (Z.eqb_spec r 0) as [Er|Er]; cbn [negb]; [|repeat wp_step; exact Logic.I].
    wp_step. split; [reflexivity|].
    exists ip, r. split; [exact Hat|]. split; [exact Hr|]. split; [auto | contradiction].
  - destruct ((d_type ip <? T_DIR) || (d_type ip >? T_DEV)) eqn:Erange;
      [repeat wp_step; exact Logic.I|].
    apply orb_false_iff in Erange as [E1 E2].
    apply Z.ltb_ge in E1. rewrite Z.gtb_ltb in E2. apply Z.ltb_ge in E2.
    wp_step. apply wp_load_inode_refs; [|exact Logic.I].
    intros r Hi Hr. cbn [log inode_refs] in Hr.
    destruct (Z.eqb_spec r 0) as [Er|Er]; [repeat wp_step; exact Logic.I|].
    destruct ((d_type ip =? T_DIR) && (r >? 1)) eqn:Edir; [repeat wp_step; exact Logic.I|].
    destruct (Z.eqb_spec (wrap32 (d_nlink ip)) r) as [El|El]; cbn [negb];
      [|repeat wp_step; exact Logic.I].
    eapply wp_mono; [apply addr_scan_sound | | auto].
    intros ? s' [Ht Hm]. split; [exact Ht|].
    exists ip, r. split; [exact Hat|]. split; [exact Hr|]. split; [contradiction|].
    intros _. split; [lia|]. split; [exact Er|]. split; [|split; [exact El|]].
    + intros Ed. apply Z.eqb_eq in Ed. rewrite Ed in Edir. cbn [andb] in Edir.
      rewrite Z.gtb_ltb in Edir. apply Z.ltb_ge in Edir. exact Edir.
    + intros k Hk Hu. apply Hm; [lia | exact Hk |]. intros k' Hk'. apply Hu. lia.
Qed.

Lemma inode_loop_sound (n : nat) (i : Z) (s : state) :
  wp (inode_loop img g n i)
     (fun _ s' => tables s' = tables s
        /\ forall j, i <= j < i + Z.of_nat n -> inode_passes img g (inode_refs s) j)
     (fun _ _ => True) s.
Proof.
  revert i s. induction n as [|n IH]; intros i s; cbn [inode_loop].
  - wp_step. split; [reflexivity|]. intros j Hj. lia.
  - wp_step. eapply wp_mono; [apply check_inode_sound | | auto].
    intros ? s1 [Ht1 Hp]. cbv beta. wp_step; [wp_step; exact Logic.I|].
    eapply wp_mono; [apply IH | | auto].
    intros ? s' [Ht Hrest]. split; [congruence|].
    assert (Hrefs : inode_refs s1 = inode_refs s) by (unfold tables in Ht1; congruence).
    rewrite Hrefs in Hrest.
    intros j Hj. destruct (Z.eq_dec j i) as [->|Hne]; [exact Hp|]. apply Hrest. lia.
Qed.

Lemma bitmap_loop_sound (n : nat) (i : Z) (s : state) :
  wp (bitmap_loop img g n i)
     (fun _ s' => tables s' = tables s
        /\ forall b, i <= b < i + Z.of_nat n -> block_passes img g (block_refs s) b)
     (fun _ _ => True) s.
Proof.
  revert i s. induction n as [|n IH]; intros i s; cbn [bitmap_loop].
  - wp_step. split; [reflexivity|]. intros b Hb. lia.
  - wp_step. apply wp_bmapval_bit; [|intros; exact Logic.I].
    intros v s1 Hbit Ht1.
    assert (Hb1 : block_refs s1 = block_refs s) by (unfold tables in Ht1; congruence).
    assert (Hrest : block_passes img g (block_refs s) i ->
              wp (if i =? INT_MAX then fault else bitmap_loop img g n (i + 1))
                 (fun _ s' => tables s' = tables s
                    /\ forall b, i <= b < i + Z.of_nat (S n) ->
                         block_passes img g (block_refs s) b)
                 (fun _ _ => True) s1).
    { intros Hp. wp_step; [wp_step; exact Logic.I|].
      eapply wp_mono; [apply IH | | auto].
      intros ? s' [Ht Hr]. split; [congruence|]. rewrite Hb1 in Hr.
      intros b Hb. destruct (Z.eq_dec b i) as [->|Hne]; [exact Hp|]. apply Hr. lia. }
    wp_step. destruct (Z.eqb_spec v 0) as [Ev|Ev].
    + wp_step. apply Hrest. exists v. split; [exact Hbit | contradiction].
    + wp_step. apply wp_load_block_refs; [|exact Logic.I].
      intros r Hi Hr. wp_step.
      destruct (Z.eqb_spec r 0) as [Er|Er]; [repeat wp_step; exact Logic.I|].
      apply Hrest. exists v. split; [exact Hbit|]. intros _.
      exists r. rewrite <- Hb1. split; assumption.
Qed.

End Scans.

(** When the final inode scan runs to its end, it has changed neither
    table and every inode it looked at passes: a free inode is not
    referenced; a live one has a valid type, is referenced, at most once
    if it is a directory, has a link count equal to its reference count,
    and the bitmap marks each of its direct addresses up to the first zero
    one. *)
Theorem inode_scan_sound `{FsParams} (img : list byte) (g : globals) (n : nat) (i : Z)
    (s s' : state) :
  inode_loop img g n i s = Ret tt s' ->
  tables s' = tables s
  /\ forall j, i <= j < i + Z.of_nat n -> inode_passes img g (inode_refs s) j.
Proof.
  intros Hrun. pose proof (inode_loop_sound img g n i s) as Hw.
  unfold wp in Hw. rewrite Hrun in Hw. exact Hw.
Qed.

(** When the bitmap scan runs to its end, it has changed neither table and
    every block it looked at that the bitmap marks has a non-zero
    reference count. *)
Theorem bitmap_scan_sound `{FsParams} (img : list byte) (g : globals) (n : nat) (i : Z)
    (s s' : state) :
  bitmap_loop img g n i s = Ret tt s' ->
  tables s' = tables s
  /\ forall b, i <= b < i + Z.of_nat n -> block_passes img g (block_refs s) b.
Proof.
  intros Hrun. pose proof (bitmap_loop_sound img g n i s) as Hw.
  unfold wp in Hw. rewrite Hrun in Hw. exact Hw.
Qed.

(** ** The directory format check *)

Lemma recurse_dir_dots `{FsParams} (img : list byte) (g : globals) (fuel : nat)
    (dir : dinode) (inum : Z) (s : state) :
  wp (recurse_dir img g fuel dir inum)
     (fun _ _ =>
        d_type dir = T_DIR
        /\ ((0 < NDIRECT)%nat -> addr dir 0 <> 0 ->
            check_bp g (addr dir 0) = true
            /\ exists buf, read_at img (fp_seek_block (addr dir 0)) BSIZE = Some buf
                           /\ dots_ok buf inum))
     (fun _ _ => True) s.
Proof.
  destruct fuel as [|fuel]; cbn [recurse_dir]; [wp_step; exact Logic.I|].
  wp_step. wp_step.
  destruct (Z.eqb_spec (d_type dir) T_DIR) as [Et|Et]; cbn [negb];
    [|repeat wp_step; exact Logic.I].
  destruct NDIRECT as [|n] eqn:En; cbn [dir_blocks].
  { wp_step. split; [exact Et|]. intros Hn. lia. }
  destruct (Z.eqb_spec (addr dir 0) 0) as [E0|E0].
  { wp_step. split; [exact Et|]. intros _ Hnz. contradiction. }
  destruct (check_bp g (addr dir 0)) eqn:Hc; cbn [negb]; [|repeat wp_step; exact Logic.I].
  wp_step. wp_step; [|exact Logic.I]. wp_step. apply wp_rblock; [|exact Logic.I].
  intros buf Hb. cbn [Nat.eqb]. wp_step. unfold check_dots, rdirent. cbv zeta.
  destruct (strcmp_eq (de_name (decode_dirent buf 0)) ["."%byte]) eqn:Hn0; cbn [negb orb];
    [|repeat wp_step; exact Logic.I].
  destruct (Z.eqb_spec (de_inum (decode_dirent buf 0)) inum) as [Ei|Ei]; cbn [negb];
    [|repeat wp_step; exact Logic.I].
  destruct (strcmp_eq (de_name (decode_dirent buf 1)) ["."%byte; "."%byte]) eqn:Hn1;
    cbn [negb]; [|repeat wp_step; exact Logic.I].
  wp_step. apply wp_const. split; [exact Et|]. intros _ _. split; [reflexivity|].
  exists buf. split; [exact Hb|]. split; [exact Hn0|]. split; [exact Ei | exact Hn1].
Qed.

(** When [recurse_dir] returns, the inode it was given is a directory, and
    if its first address is not zero, that address is in the range
    [check_bp] accepts, its block is readable, slot 0 of the block is
    named [.] and names the directory itself, and slot 1 is named [..]. *)
Theorem recurse_dir_checks_dots `{FsParams} (img : list byte) (g : globals) (fuel : nat)
    (dir : dinode) (inum : Z) (s s' : state) :
  (0 < NDIRECT)%nat ->
  recurse_dir img g fuel dir inum s = Ret tt s' ->
  d_type dir = T_DIR
  /\ (addr dir 0 <> 0 ->
      check_bp g (addr dir 0) = true
      /\ exists buf, read_at img (fp_seek_block (addr dir 0)) BSIZE = Some buf
                     /\ dots_ok buf inum).
Proof.
  intros Hn Hrun. pose proof (recurse_dir_dots img g fuel dir inum s) as Hw.
  unfold wp in Hw. rewrite Hrun in Hw. destruct Hw as [Ht Hd].
  split; [exact Ht|]. intros Hnz. exact (Hd Hn Hnz).
Qed.

(** ** What an accepted image satisfies *)

(** When the check of an image returns, it returns 0, the tables are as
    the directory walk left them, and: inode 1 is a directory whose first
    block is readable and has [..] naming inode 1 (and [.] too, when the
    first address is not zero); every inode from 2 up to the declared
    count passes the inode scan; every block from the end of the metadata
    up to the declared block count that the bitmap marks is counted. *)
Theorem accepted_image_sound `{FsParams} (img : list byte) (g : globals) (fuel : nat)
    (s s' : state) (c : Z) :
  (0 < NDIRECT)%nat ->
  check_image img g fuel s = Ret c s' ->
  c = 0
  /\ (exists root buf,
        inode_at img g 1 = Some root /\ d_type root = T_DIR
        /\ read_at img (fp_seek_block (addr root 0)) BSIZE = Some buf
        /\ de_inum (decode_dirent buf 1) = 1
        /\ (addr root 0 <> 0 -> check_bp g (addr root 0) = true /\ dots_ok buf 1))
  /\ (forall j, 2 <= j < ninodes g -> inode_passes img g (inode_refs s') j)
  /\ (forall b, nmeta g <= b < nblocks g -> block_passes img g (block_refs s') b).
Proof.
  intros Hnd Hrun.
  assert (Hw : wp (check_image img g fuel)
    (fun c s' =>
       c = 0
       /\ (exists root buf,
             inode_at img g 1 = Some root /\ d_type root = T_DIR
             /\ read_at img (fp_seek_block (addr root 0)) BSIZE = Some buf
             /\ de_inum (decode_dirent buf 1) = 1
             /\ (addr root 0 <> 0 -> check_bp g (addr root 0) = true /\ dots_ok buf 1))
       /\ (forall j, 2 <= j < ninodes g -> inode_passes img g (inode_refs s') j)
       /\ (forall b, nmeta g <= b < nblocks g -> block_passes img g (block_refs s') b))
    (fun _ _ => True) s).
  { unfold check_image. wp_step. wp_step. wp_step. apply wp_rinode; [|exact Logic.I].
    intros buf0 Hb0. set (root := decode_dinode buf0 (1 mod IPB)).
    assert (Hat : inode_at img g 1 = Some root)
      by (unfold inode_at; rewrite Hb0; reflexivity).
    destruct (Z.eqb_spec (d_type root) T_DIR) as [Et|Et]; cbn [negb];
      [|repeat wp_step; exact Logic.I].
    wp_step. apply wp_rblock; [|exact Logic.I].
    intros buf Hb. unfold rdirent. cbv zeta.
    destruct (Z.eqb_spec (de_inum (decode_dirent buf 1)) 1) as [Ep|Ep]; cbn [negb];
      [|repeat wp_step; exact Logic.I].
    wp_step. eapply wp_mono; [apply recurse_dir_dots | | auto].
    intros ? s1 [_ Hdots]. cbv beta. wp_step.
    eapply wp_mono; [apply inode_loop_sound | | auto].
    intros ? s2 [Ht2 Hino]. cbv beta. wp_step.
    eapply wp_mono; [apply bitmap_loop_sound | | auto].
    intros ? s3 [Ht3 Hblk]. cbv beta. wp_step.
    assert (Hi3 : inode_refs s3 = inode_refs s1) by (unfold tables in *; congruence).
    assert (Hb3 : block_refs s3 = block_refs s2) by (unfold tables in *; congruence).
    split; [reflexivity|]. split; [|split].
    - exists root, buf. split; [exact Hat|]. split; [exact Et|]. split; [exact Hb|].
      split; [exact Ep|]. intros Hnz. destruct (Hdots Hnd Hnz) as [Hc (buf' & Hb' & Hd)].
      split; [exact Hc|]. unfold fp_seek_block in Hb'. rewrite Hb in Hb'.
      injection Hb' as <-. exact Hd.
    - intros j Hj. rewrite Hi3. apply Hino. lia.
    - intros b Hbr. rewrite Hb3. apply Hblk. lia. }
  unfold wp in Hw. rewrite Hrun in Hw. exact Hw.
Qed.

(** ** Exit statuses *)

Section Status.
Context `{FsParams} (img : list byte) (g : globals).

Lemma exits_1_exit (s : state) : exits_1 (SExit 1) s.
Proof. intros c [= <-]. reflexivity. Qed.

Lemma exits_1_fault (s : state) : exits_1 SFault s.
Proof. intros c Hc. discriminate. Qed.

Lemma exits_1_timeout (s : state) : exits_1 STimeout s.
Proof. intros c Hc. discriminate. Qed.

Hint Resolve exits_1_exit exits_1_fault exits_1_timeout : frame.

Ltac status_go := repeat wp_step; auto with frame.

Lemma status_file_direct f n i last s :
  wp (file_direct g f n i last) (fun _ _ => True) exits_1 s.
Proof. revert i last s. induction n; intros; cbn [file_direct]; status_go. Qed.

Lemma status_file_indirect buf n i s :
  wp (file_indirect g buf n i) (fun _ _ => True) exits_1 s.
Proof. revert i s. induction n; intros; cbn [file_indirect]; status_go. Qed.

Lemma status_process_file f s : wp (process_file img g f) (fun _ _ => True) exits_1 s.
Proof.
  unfold process_file. wp_step; [status_go|].
  wp_step. eapply wp_mono; [apply status_file_direct | | auto].
  intros fl s1 _. cbv beta. status_go; apply status_file_indirect.
Qed.

Lemma status_process_entry rec de s :
  (forall dir inum s, wp (rec dir inum) (fun _ _ => True) exits_1 s) ->
  wp (process_entry img g rec de) (fun _ _ => True) exits_1 s.
Proof. intros Hrec. unfold process_entry. status_go. apply status_process_file. Qed.

Lemma status_scan_dirents rec buf n bdeidx s :
  (forall dir inum s, wp (rec dir inum) (fun _ _ => True) exits_1 s) ->
  wp (scan_dirents img g rec buf n bdeidx) (fun _ _ => True) exits_1 s.
Proof.
  intros Hrec. revert bdeidx s. induction n as [|n IH]; intros; cbn [scan_dirents];
    status_go.
  eapply wp_mono; [apply status_process_entry, Hrec | | auto]. intros ? s1 _. apply IH.
Qed.

Lemma status_dir_blocks rec dir inum n i s :
  (forall dir inum s, wp (rec dir inum) (fun _ _ => True) exits_1 s) ->
  wp (dir_blocks img g rec dir inum n i) (fun _ _ => True) exits_1 s.
Proof.
  intros Hrec. revert i s. induction n as [|n IH]; intros; cbn [dir_blocks]; status_go.
  - unfold check_dots. status_go.
    all: eapply wp_mono; [apply status_scan_dirents, Hrec | | auto]; intros ? s1 _; apply IH.
  - eapply wp_mono; [apply status_scan_dirents, Hrec | | auto]. intros ? s1 _. apply IH.
Qed.

Lemma status_recurse_dir fuel dir inum s :
  wp (recurse_dir img g fuel dir inum) (fun _ _ => True) exits_1 s.
Proof.
  revert dir inum s. induction fuel as [|fuel IH]; intros; cbn [recurse_dir]; status_go.
  apply status_dir_blocks, IH.
Qed.

Lemma status_addr_scan inode n i s :
  wp (addr_scan img g inode n i) (fun _ _ => True) exits_1 s.
Proof. revert i s. induction n; intros; cbn [addr_scan]; status_go. Qed.

Lemma status_inode_loop n i s : wp (inode_loop img g n i) (fun _ _ => True) exits_1 s.
Proof.
  revert i s. induction n as [|n IH]; intros; cbn [inode_loop]; [status_go|].
  wp_step. unfold check_inode. status_go.
  all: try (eapply wp_mono; [apply status_addr_scan | | auto]; intros ? s1 _; cbv beta;
            status_go).
Qed.

Lemma status_bitmap_loop n i s : wp (bitmap_loop img g n i) (fun _ _ => True) exits_1 s.
Proof. revert i s. induction n; intros; cbn [bitmap_loop]; status_go. Qed.

Lemma status_check_image fuel s :
  wp (check_image img g fuel) (fun c _ => c = 0) exits_1 s.
Proof.
  unfold check_image. status_go.
  eapply wp_mono; [apply status_recurse_dir | | auto]. intros ? s1 _. cbv beta. wp_step.
  eapply wp_mono; [apply status_inode_loop | | auto]. intros ? s2 _. cbv beta. wp_step.
  eapply wp_mono; [apply status_bitmap_loop | | auto]. intros ? s3 _. cbv beta. wp_step.
  reflexivity.
Qed.

End Status.


(** ** The scan of a directory block *)

(** The scan of a directory block does not depend on anything behind the
    first slot whose inode number is 0: two blocks that agree from the
    start slot up to such a slot are scanned alike.  Nothing past the end
    marker of a block is looked at. *)
Theorem scan_dirents_stops_at_free_slot `{FsParams} (img : list byte) (g : globals)
    (rec : dinode -> Z -> M unit) (buf buf' : list byte) (n bdeidx z : nat) (s : state) :
  (bdeidx <= z)%nat ->
  de_inum (rdirent (Z.of_nat z) buf) = 0 ->
  (forall k, (bdeidx <= k <= z)%nat ->
     rdirent (Z.of_nat k) buf' = rdirent (Z.of_nat k) buf) ->
  scan_dirents img g rec buf' n bdeidx s = scan_dirents img g rec buf n bdeidx s.
Proof.
  revert bdeidx s. induction n as [|n IH]; intros bdeidx s Hz Hzero Hagree; [reflexivity|].
  cbn [scan_dirents]. rewrite (Hagree bdeidx) by lia.
  destruct (Z.eqb_spec (de_inum (rdirent (Z.of_nat bdeidx) buf)) 0) as [E|E]; [reflexivity|].
  assert (bdeidx <> z) by (intros ->; contradiction).
  unfold bind. destruct (process_entry img g rec _ s) as [[] s1|c s1|s1|s1]; try reflexivity.
  apply IH; [lia | exact Hzero |]. intros k Hk. apply Hagree. lia.
Qed.

(** ** What a completed directory walk has checked *)

Section WalkSound.
Context `{FsParams} (img : list byte) (g : globals).

Lemma wp_any {A} (m : M A) (s : state) : wp m (fun _ _ => True) (fun _ _ => True) s.
Proof. apply wp_const. exact Logic.I. Qed.

Lemma dir_blocks_addresses rec dir inum n i s :
  wp (dir_blocks img g rec dir inum n i)
     (fun _ _ => forall j, (i <= j < i + n)%nat ->
        (forall k, (i <= k <= j)%nat -> addr dir k <> 0) ->
        check_bp g (addr dir j) = true
        /\ exists buf, read_at img (fp_seek_block (addr dir j)) BSIZE = Some buf)
     (fun _ _ => True) s.
Proof.
  revert i s. induction n as [|n IH]; intros i s; cbn [dir_blocks].
  - wp_step. intros j Hj. lia.
  - destruct (Z.eqb_spec (addr dir i) 0) as [E0|E0].
    { wp_step. intros j Hj Hnz. exfalso. apply (Hnz i); [lia | exact E0]. }
    destruct (check_bp g (addr dir i)) eqn:Hc; cbn [negb]; [|repeat wp_step; exact Logic.I].
    wp_step. wp_step; [|exact Logic.I]. wp_step. apply wp_rblock; [|exact Logic.I].
    intros buf Hb. wp_step. eapply wp_mono; [apply wp_any | | auto].
    intros bdeidx s1 _. cbv beta. wp_step. eapply wp_mono; [apply wp_any | | auto].
    intros ? s2 _. eapply wp_mono; [apply (IH (S i)) | | auto].
    intros ? s3 Hrest j Hj Hnz. cbv beta in Hrest.
    destruct (Nat.eq_dec j i) as [->|Hne].
    + split; [exact Hc|]. exists buf. exact Hb.
    + apply Hrest; [lia|]. intros k Hk. apply Hnz. lia.
Qed.

Section Entries.
Variable rec : dinode -> Z -> M unit.
Variable below : dinode -> list Z.
Hypothesis Hrec : forall dir x s,
  wp (rec dir x) (fun _ _ => Forall (valid_inode img g) (below dir)) (fun _ _ => True) s.

Lemma valid_process_entry de s :
  wp (process_entry img g rec de)
     (fun _ _ => Forall (valid_inode img g) (counted_entry img g below (de_inum de)))
     (fun _ _ => True) s.
Proof.
  unfold process_entry, counted_entry. set (x := de_inum de).
  wp_step. apply wp_rinode; [|exact Logic.I].
  intros buf Hb. set (cur := decode_dinode buf (x mod IPB)).
  assert (Hat : inode_at img g x = Some cur) by (unfold inode_at; rewrite Hb; reflexivity).
  rewrite Hat.
  destruct ((d_type cur <? T_DIR) || (d_type cur >? T_DEV)) eqn:Erange;
    [repeat wp_step; exact Logic.I|].
  apply orb_false_iff in Erange as [E1 E2].
  apply Z.ltb_ge in E1. rewrite Z.gtb_ltb in E2. apply Z.ltb_ge in E2.
  assert (Hx : valid_inode img g x) by (exists cur; split; [exact Hat | lia]).
  wp_step. wp_step; [|exact Logic.I].
  destruct (d_type cur =? T_DIR).
  - wp_step. wp_step; [|exact Logic.I]. wp_step; [repeat wp_step; exact Logic.I|].
    eapply wp_mono; [apply Hrec | | auto].
    intros ? s' Hb'. constructor; assumption.
  - apply wp_const. constructor; [exact Hx | constructor].
Qed.

Lemma valid_scan_dirents buf n bdeidx s :
  wp (scan_dirents img g rec buf n bdeidx)
     (fun _ _ => Forall (valid_inode img g)
                   (flat_map (counted_entry img g below) (live_from buf n bdeidx)))
     (fun _ _ => True) s.
Proof.
  revert bdeidx s. induction n as [|n IH]; intros bdeidx s; cbn [scan_dirents live_from].
  - wp_step. constructor.
  - unfold rdirent. destruct (de_inum (decode_dirent buf (Z.of_nat bdeidx)) =? 0).
    + wp_step. constructor.
    + wp_step. eapply wp_mono; [apply valid_process_entry | | auto].
      intros ? s1 Hv1. eapply wp_mono; [apply IH | | auto].
      intros ? s2 Hv2. cbn [flat_map]. apply Forall_app. split; assumption.
Qed.

Lemma valid_dir_blocks dir inum n i s :
  wp (dir_blocks img g rec dir inum n i)
     (fun _ _ => Forall (valid_inode img g) (counted_blocks img g below dir n i))
     (fun _ _ => True) s.
Proof.
  revert i s. induction n as [|n IH]; intros i s; cbn [dir_blocks counted_blocks].
  - wp_step. constructor.
  - destruct (addr dir i =? 0); [wp_step; constructor|].
    wp_step; [repeat wp_step; exact Logic.I|].
    wp_step. wp_step; [|exact Logic.I]. wp_step. apply wp_rblock; [|exact Logic.I].
    intros buf Hb. unfold fp_seek_block. rewrite Hb. wp_step.
    assert (Hstart : forall s0,
      wp (let* _ := scan_dirents img g rec buf (DPB - first_counted i) (first_counted i) in
          dir_blocks img g rec dir inum n (S i))
         (fun _ _ => Forall (valid_inode img g)
            (flat_map (counted_entry img g below) (counted_in_block i buf)
             ++ counted_blocks img g below dir n (S i)))
         (fun _ _ => True) s0).
    { intros s0. wp_step. eapply wp_mono; [apply valid_scan_dirents | | auto].
      intros ? s1 Hv1. eapply wp_mono; [apply IH | | auto].
      intros ? s2 Hv2. apply Forall_app. split; assumption. }
    unfold first_counted in Hstart. destruct (Nat.eqb i 0).
    + eapply wp_mono; [apply (count_check_dots buf inum) | | auto].
      intros b s1 [-> _]. apply Hstart.
    + wp_step. apply Hstart.
Qed.

End Entries.

Lemma valid_recurse_dir fuel dir inum s :
  wp (recurse_dir img g fuel dir inum)
     (fun _ _ => Forall (valid_inode img g) (counted img g fuel dir))
     (fun _ _ => True) s.
Proof.
  revert dir inum s. induction fuel as [|fuel IH]; intros dir inum s; cbn [recurse_dir counted].
  - wp_step. exact Logic.I.
  - wp_step. wp_step. wp_step; [repeat wp_step; exact Logic.I|].
    apply (valid_dir_blocks (recurse_dir img g fuel) (counted img g fuel) IH).
Qed.

End WalkSound.


(** ** The further properties on concrete data *)

Section Xv6Samples.
#[local] Existing Instance Xv6.params.

Lemma rblock_reads_block_witness :
  0 <= BSIZE
  /\ (let off := wrap32 (5 * BSIZE) in
      (exists buf,
          rblock Xv6.img_root_only 5 init_state = Ret buf (log (Call f_rblock 5) init_state)
          /\ off + BSIZE <= Z.of_nat (length Xv6.img_root_only)
          /\ length buf = Z.to_nat BSIZE
          /\ forall k, 0 <= k < BSIZE ->
               buf !! Z.to_nat k = Xv6.img_root_only !! Z.to_nat (off + k))
      \/ (rblock Xv6.img_root_only 5 init_state
          = Exit 1 (log (Perror "fread") (log (Call f_rblock 5) init_state))
          /\ Z.of_nat (length Xv6.img_root_only) < off + BSIZE)).
Proof.
  split; [discriminate |].
  apply (rblock_reads_block Xv6.img_root_only 5 init_state). discriminate.
Defined.

Lemma bmapval_bit_or_exit_witness :
  0 < BSIZE /\ 0 <= 5 < 2 ^ 32
  /\ ((exists v s', bmapval Xv6.img_root_only (layout Xv6.sb64) 5 init_state = Ret v s'
                    /\ (v = 0 \/ v = 1)
                    /\ bit_at Xv6.img_root_only (layout Xv6.sb64) 5 = Some v
                    /\ tables s' = tables init_state)
      \/ (exists s', bmapval Xv6.img_root_only (layout Xv6.sb64) 5 init_state = Exit 1 s'
                     /\ bit_at Xv6.img_root_only (layout Xv6.sb64) 5 = None
                     /\ tables s' = tables init_state)).
Proof.
  split; [reflexivity |]. split; [split; [discriminate | reflexivity] |].
  apply (bmapval_bit_or_exit Xv6.img_root_only (layout Xv6.sb64) 5 init_state).
  - reflexivity.
  - split; [discriminate | reflexivity].
Defined.

Lemma small_state_in_range : counters_in_range (block_refs Xv6.small_state).
Proof.
  unfold counters_in_range. apply Forall_forall. intros v Hv.
  apply elem_of_replicate in Hv as [-> _]. split; [discriminate | reflexivity].
Defined.

Lemma process_file_direct_sound_witness :
  let g := layout Xv6.sb64 in
  let o := process_file Xv6.img_subdir g Samples.file_b Xv6.small_state in
  counters_in_range (block_refs Xv6.small_state)
  /\ o = Ret tt (final o)
  /\ (d_type Samples.file_b = T_FILE \/ d_type Samples.file_b = T_DEV)
  /\ forall j, (j < NDIRECT)%nat -> in_use_slot Samples.file_b j ->
       check_bp g (addr Samples.file_b j) = true
       /\ forall k, (k < j)%nat -> addr Samples.file_b k <> addr Samples.file_b j.
Proof.
  intros g o. split; [exact small_state_in_range |]. split; [vm_compute; reflexivity |].
  apply (process_file_direct_sound Xv6.img_subdir g Samples.file_b Xv6.small_state (final o)).
  - exact small_state_in_range.
  - vm_compute. reflexivity.
Defined.

Lemma block7_counted_in_range : counters_in_range (block_refs Samples.state_block7_counted).
Proof.
  unfold counters_in_range. apply Forall_forall. intros v Hv.
  apply list_elem_of_lookup in Hv as [i Hi]. cbn [Samples.state_block7_counted block_refs] in Hi.
  destruct (Nat.eq_dec i 2%nat) as [->|Hne].
  - vm_compute in Hi. injection Hi as <-. split; [discriminate | reflexivity].
  - rewrite list_lookup_insert_ne in Hi by congruence.
    apply lookup_replicate in Hi as [-> _]. split; [discriminate | reflexivity].
Defined.

Lemma file_b_slot0_in_use : in_use_slot Samples.file_b 0.
Proof.
  intros k' Hk. assert (k' = 0%nat) by lia. subst k'. vm_compute. discriminate.
Defined.

Lemma process_file_rejects_counted_block_witness :
  let g := layout Xv6.sb64 in
  counters_in_range (block_refs Samples.state_block7_counted)
  /\ (0 < NDIRECT)%nat
  /\ in_use_slot Samples.file_b 0
  /\ block_refs Samples.state_block7_counted
       !! Z.to_nat (wrap32 (addr Samples.file_b 0 - nmeta g)) = Some 1
  /\ 1 <= 1
  /\ forall s', process_file Xv6.img_subdir g Samples.file_b Samples.state_block7_counted
                <> Ret tt s'.
Proof.
  intros g. split; [exact block7_counted_in_range |]. split; [vm_compute; lia |].
  split; [exact file_b_slot0_in_use |]. split; [vm_compute; reflexivity |].
  split; [discriminate |].
  apply (process_file_rejects_counted_block Xv6.img_subdir g Samples.file_b 0 1
           Samples.state_block7_counted).
  - exact block7_counted_in_range.
  - vm_compute. lia.
  - exact file_b_slot0_in_use.
  - vm_compute. reflexivity.
  - discriminate.
Defined.

Lemma process_file_stays_in_table_witness :
  let g := layout Xv6.sb64 in
  (0 < NDIRECT)%nat
  /\ sb_nblocks (sb g) - nmeta g <= Z.of_nat (length (block_refs Xv6.small_state))
  /\ (addr Samples.file_b NDIRECT = 0 \/ check_bp g (addr Samples.file_b NDIRECT) = true)
  /\ ((exists s', process_file Xv6.img_subdir g Samples.file_b Xv6.small_state = Ret tt s')
      \/ (exists s', process_file Xv6.img_subdir g Samples.file_b Xv6.small_state = Exit 1 s')).
Proof.
  intros g. split; [vm_compute; lia |]. split; [vm_compute; discriminate |].
  split; [left; reflexivity |].
  apply (process_file_stays_in_table Xv6.img_subdir g Samples.file_b Xv6.small_state).
  - vm_compute. lia.
  - vm_compute. discriminate.
  - left. reflexivity.
Defined.

Lemma inode_scan_sound_witness :
  let g := layout Xv6.sb64 in
  let o := inode_loop Xv6.img_subdir g 6 2 Samples.walked_state in
  o = Ret tt (final o)
  /\ tables (final o) = tables Samples.walked_state
  /\ forall j, 2 <= j < 2 + Z.of_nat 6 ->
       inode_passes Xv6.img_subdir g (inode_refs Samples.walked_state) j.
Proof.
  intros g o. split; [vm_compute; reflexivity |].
  apply (inode_scan_sound Xv6.img_subdir g 6 2 Samples.walked_state (final o)).
  vm_compute. reflexivity.
Defined.

Lemma bitmap_scan_sound_witness :
  let g := layout Xv6.sb64 in
  let o := bitmap_loop Xv6.img_subdir g 54 5 Samples.walked_state in
  o = Ret tt (final o)
  /\ tables (final o) = tables Samples.walked_state
  /\ forall b, 5 <= b < 5 + Z.of_nat 54 ->
       block_passes Xv6.img_subdir g (block_refs Samples.walked_state) b.
Proof.
  intros g o. split; [vm_compute; reflexivity |].
  apply (bitmap_scan_sound Xv6.img_subdir g 54 5 Samples.walked_state (final o)).
  vm_compute. reflexivity.
Defined.

Lemma recurse_dir_checks_dots_witness :
  let g := layout Xv6.sb64 in
  let o := recurse_dir Xv6.img_subdir g 9 Xv6.root_dinode 1 Xv6.small_state in
  (0 < NDIRECT)%nat
  /\ o = Ret tt (final o)
  /\ d_type Xv6.root_dinode = T_DIR
  /\ (addr Xv6.root_dinode 0 <> 0 ->
      check_bp g (addr Xv6.root_dinode 0) = true
      /\ exists buf,
           read_at Xv6.img_subdir (fp_seek_block (addr Xv6.root_dinode 0)) BSIZE = Some buf
           /\ dots_ok buf 1).
Proof.
  intros g o. split; [vm_compute; lia |]. split; [vm_compute; reflexivity |].
  apply (recurse_dir_checks_dots Xv6.img_subdir g 9 Xv6.root_dinode 1 Xv6.small_state
           (final o)).
  - vm_compute. lia.
  - vm_compute. reflexivity.
Defined.


Lemma accepted_image_sound_witness :
  let g := layout Xv6.sb64 in
  let o := check_image Xv6.img_subdir g 9 init_state in
  (0 < NDIRECT)%nat
  /\ o = Ret 0 (final o)
  /\ 0 = 0
  /\ (exists root buf,
        inode_at Xv6.img_subdir g 1 = Some root /\ d_type root = T_DIR
        /\ read_at Xv6.img_subdir (fp_seek_block (addr root 0)) BSIZE = Some buf
        /\ de_inum (decode_dirent buf 1) = 1
        /\ (addr root 0 <> 0 -> check_bp g (addr root 0) = true /\ dots_ok buf 1))
  /\ (forall j, 2 <= j < ninodes g ->
        inode_passes Xv6.img_subdir g (inode_refs (final o)) j)
  /\ (forall b, nmeta g <= b < nblocks g ->
        block_passes Xv6.img_subdir g (block_refs (final o)) b).
Proof.
  intros g o. split; [vm_compute; lia |]. split; [vm_compute; reflexivity |].
  apply (accepted_image_sound Xv6.img_subdir g 9 init_state (final o) 0).
  - vm_compute. lia.
  - vm_compute. reflexivity.
Defined.

Lemma scan_dirents_stops_at_free_slot_witness :
  let g := layout Xv6.sb64 in
  let rec := recurse_dir Xv6.img_subdir g 3 in
  (2 <= 2)%nat
  /\ de_inum (rdirent (Z.of_nat 2) Samples.dir_block) = 0
  /\ (forall k, (2 <= k <= 2)%nat ->
        rdirent (Z.of_nat k) Samples.dir_block_stale = rdirent (Z.of_nat k) Samples.dir_block)
  /\ scan_dirents Xv6.img_subdir g rec Samples.dir_block_stale 30 2 Xv6.small_state
     = scan_dirents Xv6.img_subdir g rec Samples.dir_block 30 2 Xv6.small_state.
Proof.
  intros g rec.
  assert (Hagree : forall k, (2 <= k <= 2)%nat ->
            rdirent (Z.of_nat k) Samples.dir_block_stale
            = rdirent (Z.of_nat k) Samples.dir_block).
  { intros k Hk. assert (k = 2%nat) by lia. subst k. vm_compute. reflexivity. }
  split; [lia |]. split; [vm_compute; reflexivity |]. split; [exact Hagree |].
  apply (scan_dirents_stops_at_free_slot Xv6.img_subdir g rec Samples.dir_block
           Samples.dir_block_stale 30 2 2 Xv6.small_state).
  - lia.
  - vm_compute. reflexivity.
  - exact Hagree.
Defined.

Lemma check_image_terminates_witness :
  let g := layout Xv6.sb64 in
  calls f_recurse_dir (trace init_state) = []
  /\ (length (zeroed (wrap32 (sb_ninodes (sb g) * BSIZE))) < 1025)%nat
  /\ forall s', check_image Xv6.img_subdir g 1025 init_state <> Timeout s'.
Proof.
  intros g. split; [reflexivity |]. split; [vm_compute; lia |].
  apply (check_image_terminates Xv6.img_subdir g 1025 init_state).
  - reflexivity.
  - vm_compute. lia.
Defined.

End Xv6Samples.
